(** * Kantpress simulator: round state machine, bend simulation and scoring

    A shallow embedding of the game core of [src/main.js] (and of its
    sibling variant [src/unnamed/part_000], which differs only in the
    candidate target angles, the audio back end and the leaderboard store).

    Numbers.  JavaScript numbers are modelled by exact rationals [Q] for the
    angles, the bend speed and the time stamps, and by [Z] for the counters
    and for the score, which only ever receives integer increments.  NaN and
    the infinities are outside this model.

    Effects.  The module-level [state] object and the two buttons that gate
    the user actions are one record, [World], threaded explicitly through
    every function.  Calls that only draw, play sound, write label texts or
    talk to the leaderboard ([updateUI], [startSound], [stopSound],
    [checkHighScore], [draw]) do not touch [World] and are left out.

    Beside the game core, the file covers the frame loop [gameLoop], the
    punch depth computed by the two renderers, the leaderboard kept in
    [localStorage] by [src/unnamed/part_000] and the pieces of the
    leaderboard behind [/api/scores] that are plain data handling; these
    are functions of their own arguments and of the score in [World]. *)

From Stdlib Require Import String Ascii.
From Stdlib Require Import ZArith QArith Qround Qabs List Bool Lia Lqa.
From Stdlib Require Import Permutation Sorted.
Import ListNotations.

Open Scope Q_scope.

(** ** Constants *)

Definition SCORE_PER_EXACT_HIT : Z := 100.
Definition MAX_ROUNDS : Z := 10.

(** The clamp of [update] is the literal [45] in both variants. *)
Definition MIN_ANGLE : Q := 45.

(** The angle every round starts from ([nextLevel]). *)
Definition FLAT_ANGLE : Q := 180.

(** [TARGET_ANGLES] of [src/main.js] and of [src/unnamed/part_000]. *)
Definition TARGET_ANGLES_main : list Q := [40; 85; 90; 100; 135; 160; 170].
Definition TARGET_ANGLES_part_000 : list Q := [90; 100; 135; 170].

(** ** Data *)

(** The values named in the comment on [state.gamePhase]. *)
Inductive Phase : Set := IDLE | BENDING | STOPPED | RESULT | GAMEOVER.

Definition Phase_eqb (p q : Phase) : bool :=
  match p, q with
  | IDLE, IDLE | BENDING, BENDING | STOPPED, STOPPED
  | RESULT, RESULT | GAMEOVER, GAMEOVER => true
  | _, _ => false
  end.

(** [btnNext.style.display]: the two values the code assigns. *)
Inductive Display : Set := display_none | display_inline_block.

(** The [state] object, followed by the two DOM properties that enable or
    hide the user actions.  [lastTime] is the property [startBending] adds to
    [state]; it is absent ([None]) until the first bend. *)
Record World : Set := mkWorld {
  score : Z;
  level : Z;
  currentRound : Z;
  targetAngle : Q;
  currentAngle : Q;
  isBending : bool;
  gamePhase : Phase;
  startTime : Q;
  bendSpeed : Q;
  lastTime : option Q;
  btnAction_disabled : bool;
  btnNext_display : Display
}.

(** Field assignments, one per property the code writes. *)
Definition set_score (v : Z) (w : World) : World :=
  mkWorld v (level w) (currentRound w) (targetAngle w) (currentAngle w)
    (isBending w) (gamePhase w) (startTime w) (bendSpeed w) (lastTime w)
    (btnAction_disabled w) (btnNext_display w).

Definition set_level (v : Z) (w : World) : World :=
  mkWorld (score w) v (currentRound w) (targetAngle w) (currentAngle w)
    (isBending w) (gamePhase w) (startTime w) (bendSpeed w) (lastTime w)
    (btnAction_disabled w) (btnNext_display w).

Definition set_currentRound (v : Z) (w : World) : World :=
  mkWorld (score w) (level w) v (targetAngle w) (currentAngle w)
    (isBending w) (gamePhase w) (startTime w) (bendSpeed w) (lastTime w)
    (btnAction_disabled w) (btnNext_display w).

Definition set_targetAngle (v : Q) (w : World) : World :=
  mkWorld (score w) (level w) (currentRound w) v (currentAngle w)
    (isBending w) (gamePhase w) (startTime w) (bendSpeed w) (lastTime w)
    (btnAction_disabled w) (btnNext_display w).

Definition set_currentAngle (v : Q) (w : World) : World :=
  mkWorld (score w) (level w) (currentRound w) (targetAngle w) v
    (isBending w) (gamePhase w) (startTime w) (bendSpeed w) (lastTime w)
    (btnAction_disabled w) (btnNext_display w).

Definition set_isBending (v : bool) (w : World) : World :=
  mkWorld (score w) (level w) (currentRound w) (targetAngle w) (currentAngle w)
    v (gamePhase w) (startTime w) (bendSpeed w) (lastTime w)
    (btnAction_disabled w) (btnNext_display w).

Definition set_gamePhase (v : Phase) (w : World) : World :=
  mkWorld (score w) (level w) (currentRound w) (targetAngle w) (currentAngle w)
    (isBending w) v (startTime w) (bendSpeed w) (lastTime w)
    (btnAction_disabled w) (btnNext_display w).

Definition set_lastTime (v : Q) (w : World) : World :=
  mkWorld (score w) (level w) (currentRound w) (targetAngle w) (currentAngle w)
    (isBending w) (gamePhase w) (startTime w) (bendSpeed w) (Some v)
    (btnAction_disabled w) (btnNext_display w).

Definition set_btnAction_disabled (v : bool) (w : World) : World :=
  mkWorld (score w) (level w) (currentRound w) (targetAngle w) (currentAngle w)
    (isBending w) (gamePhase w) (startTime w) (bendSpeed w) (lastTime w)
    v (btnNext_display w).

Definition set_btnNext_display (v : Display) (w : World) : World :=
  mkWorld (score w) (level w) (currentRound w) (targetAngle w) (currentAngle w)
    (isBending w) (gamePhase w) (startTime w) (bendSpeed w) (lastTime w)
    (btnAction_disabled w) v.

(** Statements run left to right: [w ;> f ;> g] is [g (f w)]. *)
Notation "w ;> f" := (f w) (at level 45, left associativity, only parsing).

(** [x < y] on numbers, as a test. *)
Definition Qlt_bool (x y : Q) : bool := negb (Qle_bool y x).

(** A result of [Math.random()]: a number in the half-open interval from 0
    (included) to 1 (excluded). *)
Record Random : Set := mkRandom {
  rnd :> Q;
  rnd_ge_0 : Qle_bool 0 rnd = true;
  rnd_lt_1 : Qlt_bool rnd 1 = true
}.

(** ** Scoring *)

(** The local [points] of [calculateScore], as a function of the two angles
    it reads from [state]. *)
Definition points (finalAngle target : Q) : Z :=
  let diff := Qabs (finalAngle - target) in
  if Qlt_bool diff (1 # 2) then SCORE_PER_EXACT_HIT
  else Z.max 0 (Qfloor (100 - diff * 5)).

Definition calculateScore (w : World) : World :=
  w ;> set_score (score w + points (currentAngle w) (targetAngle w))%Z.

(** ** Round state machine *)

Definition endGame (w : World) : World :=
  w ;> set_gamePhase GAMEOVER
    ;> set_btnAction_disabled true
    ;> set_btnNext_display display_none.

Section Rounds.

(** The candidate target angles: a configuration of the variant. *)
Variable TARGET_ANGLES : list Q.

(** [TARGET_ANGLES[Math.floor(Math.random() * TARGET_ANGLES.length)]].  With
    a non-empty array the index is always in range ([random_index_lt]), so
    the default of [nth] is never returned. *)
Definition random_index (r : Random) : Z :=
  Qfloor (r * inject_Z (Z.of_nat (length TARGET_ANGLES))).

Definition random_target (r : Random) : Q :=
  nth (Z.to_nat (random_index r)) TARGET_ANGLES 0.

Definition nextLevel (r : Random) (w : World) : World :=
  if (MAX_ROUNDS <? currentRound w)%Z then endGame w
  else
    let w := w ;> set_gamePhase IDLE
               ;> set_currentAngle FLAT_ANGLE
               ;> set_isBending false
               ;> set_targetAngle (random_target r) in
    w ;> set_level (currentRound w)
      ;> set_btnAction_disabled false
      ;> set_btnNext_display display_none.

Definition restartGame (r : Random) (w : World) : World :=
  w ;> set_score 0%Z
    ;> set_currentRound 1%Z
    ;> set_level 1%Z
    ;> nextLevel r.

End Rounds.

(** [startBending]; [now] is the reading of [performance.now()]. *)
Definition startBending (now : Q) (w : World) : World :=
  if negb (Phase_eqb (gamePhase w) IDLE) then w
  else
    w ;> set_gamePhase BENDING
      ;> set_isBending true
      ;> set_lastTime now.

Definition stopBending (w : World) : World :=
  if negb (Phase_eqb (gamePhase w) BENDING) then w
  else
    let w := w ;> set_gamePhase STOPPED
               ;> set_isBending false
               ;> calculateScore in
    w ;> set_currentRound (currentRound w + 1)%Z
      ;> set_btnAction_disabled true
      ;> set_btnNext_display display_inline_block.

Definition toggleAction (now : Q) (w : World) : World :=
  if Phase_eqb (gamePhase w) IDLE then startBending now w
  else if Phase_eqb (gamePhase w) BENDING then stopBending w
  else w.

(** ** Bend simulation *)

(** [update(dt)].  Its second half only writes the angle read-out and its
    colour, so it is not part of the model. *)
Definition update (dt : Q) (w : World) : World :=
  if isBending w then
    let w := w ;> set_currentAngle (currentAngle w - bendSpeed w * dt) in
    if Qlt_bool (currentAngle w) MIN_ANGLE then
      w ;> set_currentAngle MIN_ANGLE ;> stopBending
    else w
  else w.

(** ** Page load and user events *)

(** The [state] literal of the module, with the two button properties as
    the page delivers them (the page is not part of the sources, and
    [nextLevel] overwrites both before any event can run). *)
Definition initial_world (disabled0 : bool) (display0 : Display) : World :=
  mkWorld 0 1 1 0 180 false IDLE 0 30 None disabled0 display0.

(** What can happen after page load: a press on the toggle button, a click
    on the next button, an animation frame, a call of [window.restartGame]. *)
Inductive Event : Set :=
| ev_toggle (now : Q)
| ev_next (r : Random)
| ev_frame (dt : Q)
| ev_restart (r : Random).

(** Frames carry the time elapsed since the previous frame. *)
Definition admissible (e : Event) : Prop :=
  match e with
  | ev_frame dt => 0 <= dt
  | _ => True
  end.

Section Session.

Variable TARGET_ANGLES : list Q.

(** The part of [initGame] that touches [World]: the first [nextLevel]. *)
Definition initGame (r : Random) (disabled0 : bool) (display0 : Display) : World :=
  nextLevel TARGET_ANGLES r (initial_world disabled0 display0).

Definition handle (e : Event) (w : World) : World :=
  match e with
  | ev_toggle now => toggleAction now w
  | ev_next r => nextLevel TARGET_ANGLES r w
  | ev_frame dt => update dt w
  | ev_restart r => restartGame TARGET_ANGLES r w
  end.

Fixpoint run (es : list Event) (w : World) : World :=
  match es with
  | [] => w
  | e :: es' => run es' (handle e w)
  end.

(** The states a session can be in.  No handler is assumed to be held back
    by a hidden or disabled button: every handler may run in every state. *)
Inductive Reachable : World -> Prop :=
| reach_init r d0 n0 : Reachable (initGame r d0 n0)
| reach_step e w : Reachable w -> admissible e -> Reachable (handle e w).

End Session.

(** The five session fields the specification speaks of. *)
Definition session (w : World) : Z * Z * Q * Q * Phase :=
  (score w, currentRound w, targetAngle w, currentAngle w, gamePhase w).

(** ** Frame loop *)

(** The module-level [lastTime] that [gameLoop] keeps (not the property
    [state.lastTime]), together with [state]. *)
Record Loop : Set := mkLoop {
  loop_lastTime : Q;
  loop_state : World
}.

(** [gameLoop(timestamp)]; [draw] and the request for the next frame do
    not touch the state. *)
Definition gameLoop (timestamp : Q) (p : Loop) : Loop :=
  let deltaTime := (timestamp - loop_lastTime p) / 1000 in
  mkLoop timestamp (update deltaTime (loop_state p)).

(** ** Punch depth of the two renderers *)

(** [render] of [src/src/renderer.js]: the locals [currentDepth] and
    [punchTipY]. *)
Definition currentDepth (angle : Q) : Q :=
  let bendProgress := (180 - angle) / (180 - 30) in
  let maxDepth := 60 in
  bendProgress * maxDepth.

Definition punchTipY (dieTopY angle : Q) : Q :=
  let sheetThickness := 6 in
  dieTopY - sheetThickness / 2 + currentDepth angle.

(** [drawPunch] of [src/unnamed/part_001]: the local [punchY]. *)
Definition punchY (dieY angle : Q) : Q :=
  let progress := (180 - angle) / 90 in
  let depth := progress * 30 in
  dieY - 5 + depth.

(** ** Leaderboards *)

(** Which dialog [checkHighScore] opens. *)
Inductive Modal : Set := highscore_modal | scoreboard_modal.

(** An entry of the stored list: [{name, score, date}]. *)
Record Entry : Set := mkEntry {
  entry_name : string;
  entry_score : Z;
  entry_date : string
}.

(** [highScores.sort((a, b) => b.score - a.score)]: descending by score,
    entries of equal score staying in the order they had (the sort of
    arrays is stable).  [sort_desc_stable] shows that this function is that
    sort. *)
Fixpoint insert_desc (e : Entry) (l : list Entry) : list Entry :=
  match l with
  | [] => [e]
  | y :: l' =>
      if (entry_score y <=? entry_score e)%Z then e :: l
      else y :: insert_desc e l'
  end.

Fixpoint sort_desc (l : list Entry) : list Entry :=
  match l with
  | [] => []
  | x :: l' => insert_desc x (sort_desc l')
  end.

(** The leaderboard of [src/unnamed/part_000], kept in [localStorage]. *)
Module LocalBoard.

(** [JSON.parse(localStorage.getItem('kantpress_highScores')) || []]:
    [None] is the key not being there. *)
Definition stored (storage : option (list Entry)) : list Entry :=
  match storage with
  | Some highScores => highScores
  | None => []
  end.

Definition checkHighScore (w : World) (storage : option (list Entry)) : Modal :=
  let highScores := sort_desc (stored storage) in
  if (length highScores <? 5)%nat then highscore_modal
  else
    match nth_error highScores (length highScores - 1) with
    | Some lowest =>
        if (entry_score lowest <? score w)%Z then highscore_modal
        else scoreboard_modal
    | None => scoreboard_modal (* not reached: the list has five entries *)
    end.

(** [saveScore]: the list it writes back.  [trimmed] is
    [nameInput.value.trim()], [date] is [new Date().toISOString()]. *)
Definition saveScore (trimmed date : string) (w : World)
    (storage : option (list Entry)) : list Entry :=
  let name := if String.eqb trimmed "" then "Anonym"%string else trimmed in
  let highScores := stored storage ++ [mkEntry name (score w) date] in
  let highScores := sort_desc highScores in
  if (5 <? length highScores)%nat then firstn 5 highScores else highScores.

(** [renderMiniScoreboard]: the entries it lists, [highScores.slice(0, 5)]. *)
Definition miniScoreboard (storage : option (list Entry)) : list Entry :=
  firstn 5 (stored storage).

End LocalBoard.

(** The leaderboard of [src/main.js], kept behind [/api/scores]. *)
Module CloudBoard.

(** [entry.name.split('#')[0]]: the text before the first ['#']. *)
Fixpoint before_hash (s : string) : string :=
  match s with
  | EmptyString => EmptyString
  | String c s' =>
      if Ascii.eqb c "#" then EmptyString else String c (before_hash s')
  end.

(** The member the POST handler stores: [`${name}#${Date.now()}`], with
    [now] the decimal text of [Date.now()]. *)
Definition member (name now : string) : string :=
  (name ++ "#" ++ now)%string.

(** The loop of the GET handler over the flat reply of the store,
    [[member1, score1, member2, score2, ...]]: [{name: scores[i], score:
    scores[i + 1]}] for [i = 0, 2, 4, ...]; reading past the end gives
    [undefined], here [None]. *)
Fixpoint formatted {V : Type} (scores : list V) : list (V * option V) :=
  match scores with
  | [] => []
  | [m] => [(m, None)]
  | m :: sc :: rest => (m, Some sc) :: formatted rest
  end.

(** The reply of the store for a list of (member, score) pairs. *)
Fixpoint withScores {V : Type} (pairs : list (V * V)) : list V :=
  match pairs with
  | [] => []
  | (m, sc) :: rest => m :: sc :: withScores rest
  end.

(** What [await fetch('/api/scores')] followed by [response.json()] can
    come to: an exception, a response that is not [ok], or a body. *)
Inductive Fetched : Set :=
| fetch_throws
| fetch_not_ok
| fetch_ok (body : list (string * Z)).

(** [checkHighScore]: the dialog it ends up opening. *)
Definition checkHighScore (w : World) (response : Fetched) : Modal :=
  match response with
  | fetch_throws => scoreboard_modal
  | _ =>
      let highScores :=
        match response with
        | fetch_ok body =>
            map (fun entry => (before_hash (fst entry), snd entry)) body
        | _ => []
        end in
      if (length highScores <? 10)%nat then highscore_modal
      else
        match nth_error highScores (length highScores - 1) with
        | Some lowest =>
            if (snd lowest <? score w)%Z then highscore_modal
            else scoreboard_modal
        | None => scoreboard_modal (* not reached: the list has ten entries *)
        end
  end.

End CloudBoard.

(** ** Vocabulary of the properties *)

(** What the handlers keep true between them, from page load on. *)
Record Consistent (w : World) : Prop := mkConsistent {
  angle_in_range : MIN_ANGLE <= currentAngle w /\ currentAngle w <= FLAT_ANGLE;
  speed_fixed : bendSpeed w = 30;
  flag_is_phase : isBending w = true <-> gamePhase w = BENDING;
  never_result : gamePhase w <> RESULT;
  round_open :
    gamePhase w = IDLE \/ gamePhase w = BENDING ->
    (currentRound w <= MAX_ROUNDS)%Z;
  next_hidden :
    gamePhase w <> STOPPED -> btnNext_display w = display_none
}.

(** The domain of [currentAngle]: between the clamp of [update] and flat. *)
Definition angle_ok (w : World) : Prop :=
  MIN_ANGLE <= currentAngle w <= FLAT_ANGLE.

(** The bend flag says what the phase says. *)
Definition flag_ok (w : World) : Prop :=
  isBending w = true <-> gamePhase w = BENDING.

(** Kinds of events, to speak of event sequences without a restart or
    without frames. *)
Definition is_restart (e : Event) : bool :=
  match e with ev_restart _ => true | _ => false end.

Definition is_frame (e : Event) : bool :=
  match e with ev_frame _ => true | _ => false end.

(** The counters of a session: the round counter runs from 1 to one past
    [MAX_ROUNDS], every finished round has brought at most 100 points, and
    the displayed level follows the round counter in step with the phase. *)
Record Counted (w : World) : Prop := mkCounted {
  round_from_1 : (1 <= currentRound w)%Z;
  round_to_11 : (currentRound w <= MAX_ROUNDS + 1)%Z;
  score_from_0 : (0 <= score w)%Z;
  score_per_round : (score w <= 100 * (currentRound w - 1))%Z;
  level_from_1 : (1 <= level w)%Z;
  level_follows :
    match gamePhase w with
    | IDLE | BENDING => level w = currentRound w
    | STOPPED => level w = (currentRound w - 1)%Z
    | GAMEOVER => level w = MAX_ROUNDS /\ currentRound w = (MAX_ROUNDS + 1)%Z
    | RESULT => False
    end;
  action_disabled :
    btnAction_disabled w = true <->
    gamePhase w = STOPPED \/ gamePhase w = GAMEOVER;
  next_shown :
    btnNext_display w = display_inline_block <-> gamePhase w = STOPPED
}.


(** The frame loop called with one time stamp after the other. *)
Fixpoint loops (timestamps : list Q) (p : Loop) : Loop :=
  match timestamps with
  | [] => p
  | t :: rest => loops rest (gameLoop t p)
  end.

(** Time stamps that never go back, starting from [lastTime]. *)
Fixpoint clock_forward (lastTime : Q) (timestamps : list Q) : Prop :=
  match timestamps with
  | [] => True
  | t :: rest => lastTime <= t /\ clock_forward t rest
  end.



(** Descending by score, for the fetched (member, score) pairs. *)
Definition by_score (a b : string * Z) : Prop := (snd b <= snd a)%Z.

(** Descending by score. *)
Definition desc (a b : Entry) : Prop := (entry_score b <= entry_score a)%Z.

(** The entries of a given score, in the order of the list. *)
Definition with_score (k : Z) (l : list Entry) : list Entry :=
  filter (fun e => (entry_score e =? k)%Z) l.

(** Whether a text contains the separator ['#']. *)
Fixpoint has_hash (s : string) : bool :=
  match s with
  | EmptyString => false
  | String c s' => Ascii.eqb c "#" || has_hash s'
  end.

(** The entry [LocalBoard.saveScore] adds. *)
Definition new_entry (trimmed date : string) (w : World) : Entry :=
  mkEntry (if String.eqb trimmed "" then "Anonym"%string else trimmed)
    (score w) date.

(** ** Sample states and sessions *)

(** A draw in the middle of the interval picks the middle of the array. *)
Definition half : Random := mkRandom (1 # 2) eq_refl eq_refl.

(** The smallest draw picks the first element. *)
Definition zero : Random := mkRandom 0 eq_refl eq_refl.

(** A flat sheet at the very start of a bend, target 90. *)
Definition mid_bend : World :=
  mkWorld 0 1 1 90 180 true BENDING 0 30 (Some 0) false display_none.

(** The clamp scenario of the specification, in round 3 with 100 points
    so far: from 60 degrees, one second at speed 30 would give 30; the step
    leaves 45, stops the round and scores against 45. *)
Definition late_bend : World :=
  mkWorld 100 3 3 40 60 true BENDING 0 30 (Some 0) false display_none.

(** One round played through: start, hold for three seconds, stop, next. *)
Definition one_round : list Event :=
  [ev_toggle 0; ev_frame 3; ev_toggle 3000; ev_next half].

Definition ten_rounds : list Event := concat (repeat one_round 10).

(** The page of [src/main.js] right after loading, target 100. *)
Definition loaded : World := initGame TARGET_ANGLES_main half false display_none.

(** The same page a second and a half into the first bend. *)
Definition bending : World :=
  run TARGET_ANGLES_main [ev_toggle 0; ev_frame (3 # 2)] loaded.

(** ... and after the tenth round and the click that ends the game. *)
Definition finished : World := run TARGET_ANGLES_main ten_rounds loaded.

(** The tenth round stopped, the result button not yet clicked. *)
Definition last_stop : World :=
  run TARGET_ANGLES_main (removelast ten_rounds) loaded.

(** A full local board, and a finished session with 650 points. *)
Definition full_board : list Entry :=
  [mkEntry "Ada" 900 "2026-01-05T10:00:00.000Z";
   mkEntry "Bo" 800 "2026-01-06T10:00:00.000Z";
   mkEntry "Cy" 700 "2026-01-07T10:00:00.000Z";
   mkEntry "Di" 600 "2026-01-08T10:00:00.000Z";
   mkEntry "Ed" 500 "2026-01-09T10:00:00.000Z"]%string.

Definition finished_650 : World := set_score 650 finished.

(** A full reply of [/api/scores]: ten members, highest score first. *)
Definition fetched_board : list (string * Z) :=
  [("Al#1767610800000", 950); ("Bea#1767610801000", 900);
   ("Cy#1767610802000", 850); ("Di#1767610803000", 800);
   ("Ed#1767610804000", 750); ("Fay#1767610805000", 700);
   ("Gus#1767610806000", 650); ("Hal#1767610807000", 600);
   ("Ida#1767610808000", 550); ("Jo#1767610809000", 500)]%string%Z.

(** ** Properties *)

(** *** Comparisons *)

Lemma Qlt_bool_iff (x y : Q) : Qlt_bool x y = true <-> x < y.
Proof.
  unfold Qlt_bool. rewrite negb_true_iff.
  split; intro H.
  - apply Qnot_le_lt. intro Hle. apply Qle_bool_iff in Hle. congruence.
  - destruct (Qle_bool y x) eqn:E; [|reflexivity].
    apply Qle_bool_iff in E. exfalso. apply (Qlt_not_le _ _ H E).
Qed.

Lemma Qlt_bool_false_iff (x y : Q) : Qlt_bool x y = false <-> y <= x.
Proof.
  unfold Qlt_bool. rewrite negb_false_iff. apply Qle_bool_iff.
Qed.

Lemma Phase_eqb_eq (p q : Phase) : Phase_eqb p q = true <-> p = q.
Proof. destruct p, q; simpl; split; congruence. Qed.

Lemma Phase_eqb_neq (p q : Phase) : Phase_eqb p q = false <-> p <> q.
Proof. destruct p, q; simpl; split; congruence. Qed.

(** *** Scoring *)

Lemma points_hit (a t : Q) : Qabs (a - t) < 1 # 2 -> points a t = 100%Z.
Proof.
  intro H. unfold points. apply Qlt_bool_iff in H. rewrite H. reflexivity.
Qed.

Lemma points_miss (a t : Q) :
  1 # 2 <= Qabs (a - t) ->
  points a t = Z.max 0 (Qfloor (100 - Qabs (a - t) * 5)).
Proof.
  intro H. unfold points. apply Qlt_bool_false_iff in H. rewrite H. reflexivity.
Qed.

Lemma points_range (a t : Q) : (0 <= points a t <= 100)%Z.
Proof.
  unfold points, SCORE_PER_EXACT_HIT.
  destruct (Qlt_bool (Qabs (a - t)) (1 # 2)); [lia|].
  assert (Hle : (Qfloor (100 - Qabs (a - t) * 5) <= Qfloor (inject_Z 100))%Z).
  { apply Qfloor_resp_le.
    pose proof (Qabs_nonneg (a - t)) as Hn.
    change (inject_Z 100) with 100. lra. }
  rewrite Qfloor_Z in Hle. lia.
Qed.

Lemma points_far (a t : Q) : 20 <= Qabs (a - t) -> points a t = 0%Z.
Proof.
  intro H. rewrite points_miss by lra.
  assert (Hle : (Qfloor (100 - Qabs (a - t) * 5) <= Qfloor (inject_Z 0))%Z).
  { apply Qfloor_resp_le. change (inject_Z 0) with 0. lra. }
  rewrite Qfloor_Z in Hle. lia.
Qed.

(** C1.  For every final angle and target angle, with [diff] the absolute
    value of their difference, [calculateScore] awards 100 points when
    [diff < 0.5] and [max(0, floor(100 - diff * 5))] points otherwise; the
    award is an integer between 0 and 100, and it is what [calculateScore]
    adds to the session score, changing nothing else. *)
Theorem calculateScore_points :
  forall (finalAngle target : Q) (w : World),
    let diff := Qabs (finalAngle - target) in
    (diff < 1 # 2 -> points finalAngle target = 100%Z) /\
    (~ diff < 1 # 2 ->
       points finalAngle target = Z.max 0 (Qfloor (100 - diff * 5))) /\
    (0 <= points finalAngle target <= 100)%Z /\
    calculateScore w =
      set_score (score w + points (currentAngle w) (targetAngle w)) w.
Proof.
  intros a t w diff. subst diff.
  split; [apply points_hit|].
  split; [|split; [apply points_range|reflexivity]].
  intro H. apply points_miss. apply Qnot_lt_le. exact H.
Qed.

(** The two scoring scenarios of the specification, run on the code. *)
Example points_on_target : points 90 90 = 100%Z.
Proof. reflexivity. Qed.

Example points_five_off : points 95 90 = 75%Z.
Proof. reflexivity. Qed.

(** *** Start and stop *)

Lemma startBending_guard (now : Q) (w : World) :
  gamePhase w <> IDLE -> startBending now w = w.
Proof.
  intro H. unfold startBending.
  apply Phase_eqb_neq in H. rewrite H. reflexivity.
Qed.

Lemma stopBending_guard (w : World) :
  gamePhase w <> BENDING -> stopBending w = w.
Proof.
  intro H. unfold stopBending.
  apply Phase_eqb_neq in H. rewrite H. reflexivity.
Qed.

Lemma stopBending_bending (w : World) :
  gamePhase w = BENDING ->
  stopBending w =
    mkWorld (score w + points (currentAngle w) (targetAngle w)) (level w)
      (currentRound w + 1) (targetAngle w) (currentAngle w) false STOPPED
      (startTime w) (bendSpeed w) (lastTime w) true display_inline_block.
Proof.
  intro H. unfold stopBending. rewrite H. reflexivity.
Qed.

Lemma startBending_idle (now : Q) (w : World) :
  gamePhase w = IDLE ->
  startBending now w =
    mkWorld (score w) (level w) (currentRound w) (targetAngle w)
      (currentAngle w) true BENDING (startTime w) (bendSpeed w) (Some now)
      (btnAction_disabled w) (btnNext_display w).
Proof.
  intro H. unfold startBending. rewrite H. reflexivity.
Qed.

Lemma toggleAction_idle (now : Q) (w : World) :
  gamePhase w = IDLE -> toggleAction now w = startBending now w.
Proof. intro H. unfold toggleAction. rewrite H. reflexivity. Qed.

Lemma toggleAction_bending (now : Q) (w : World) :
  gamePhase w = BENDING -> toggleAction now w = stopBending w.
Proof. intro H. unfold toggleAction. rewrite H. reflexivity. Qed.

Lemma toggleAction_other (now : Q) (w : World) :
  gamePhase w <> IDLE -> gamePhase w <> BENDING -> toggleAction now w = w.
Proof.
  intros H1 H2. unfold toggleAction.
  apply Phase_eqb_neq in H1. apply Phase_eqb_neq in H2.
  rewrite H1, H2. reflexivity.
Qed.

Lemma stopBending_currentAngle (w : World) :
  currentAngle (stopBending w) = currentAngle w.
Proof.
  unfold stopBending. destruct (negb (Phase_eqb (gamePhase w) BENDING)); reflexivity.
Qed.

Lemma stopBending_targetAngle (w : World) :
  targetAngle (stopBending w) = targetAngle w.
Proof.
  unfold stopBending. destruct (negb (Phase_eqb (gamePhase w) BENDING)); reflexivity.
Qed.

Lemma stopBending_bendSpeed (w : World) :
  bendSpeed (stopBending w) = bendSpeed w.
Proof.
  unfold stopBending. destruct (negb (Phase_eqb (gamePhase w) BENDING)); reflexivity.
Qed.

(** *** One simulation step *)

Lemma update_not_bending (dt : Q) (w : World) :
  isBending w = false -> update dt w = w.
Proof. intro H. unfold update. rewrite H. reflexivity. Qed.

Lemma update_clamped (dt : Q) (w : World) :
  isBending w = true ->
  currentAngle w - bendSpeed w * dt < MIN_ANGLE ->
  update dt w =
    stopBending (set_currentAngle MIN_ANGLE
                   (set_currentAngle (currentAngle w - bendSpeed w * dt) w)).
Proof.
  intros Hb Hlt. unfold update. rewrite Hb. simpl.
  apply Qlt_bool_iff in Hlt. rewrite Hlt. reflexivity.
Qed.

Lemma update_free (dt : Q) (w : World) :
  isBending w = true ->
  MIN_ANGLE <= currentAngle w - bendSpeed w * dt ->
  update dt w = set_currentAngle (currentAngle w - bendSpeed w * dt) w.
Proof.
  intros Hb Hle. unfold update. rewrite Hb. simpl.
  apply Qlt_bool_false_iff in Hle. rewrite Hle. reflexivity.
Qed.

Lemma update_currentAngle (dt : Q) (w : World) :
  isBending w = true ->
  currentAngle (update dt w) =
    if Qlt_bool (currentAngle w - bendSpeed w * dt) MIN_ANGLE then MIN_ANGLE
    else currentAngle w - bendSpeed w * dt.
Proof.
  intro Hb. unfold update. rewrite Hb. simpl.
  destruct (Qlt_bool (currentAngle w - bendSpeed w * dt) MIN_ANGLE); [|reflexivity].
  rewrite stopBending_currentAngle. reflexivity.
Qed.

Lemma update_targetAngle (dt : Q) (w : World) :
  targetAngle (update dt w) = targetAngle w.
Proof.
  unfold update. destruct (isBending w); [|reflexivity]. simpl.
  destruct (Qlt_bool (currentAngle w - bendSpeed w * dt) MIN_ANGLE); [|reflexivity].
  rewrite stopBending_targetAngle. reflexivity.
Qed.

Lemma update_bendSpeed (dt : Q) (w : World) :
  bendSpeed (update dt w) = bendSpeed w.
Proof.
  unfold update. destruct (isBending w); [|reflexivity]. simpl.
  destruct (Qlt_bool (currentAngle w - bendSpeed w * dt) MIN_ANGLE); [|reflexivity].
  rewrite stopBending_bendSpeed. reflexivity.
Qed.

Lemma update_floor (dt : Q) (w : World) :
  isBending w = true -> MIN_ANGLE <= currentAngle (update dt w).
Proof.
  intro Hb. rewrite update_currentAngle by exact Hb.
  destruct (Qlt_bool (currentAngle w - bendSpeed w * dt) MIN_ANGLE) eqn:E.
  - apply Qle_refl.
  - apply Qlt_bool_false_iff. exact E.
Qed.

Lemma update_decreases (dt : Q) (w : World) :
  isBending w = true -> 0 <= bendSpeed w -> 0 <= dt ->
  MIN_ANGLE <= currentAngle w ->
  currentAngle (update dt w) <= currentAngle w.
Proof.
  intros Hb Hs Hdt Hfl. rewrite update_currentAngle by exact Hb.
  destruct (Qlt_bool (currentAngle w - bendSpeed w * dt) MIN_ANGLE); [exact Hfl|].
  pose proof (Qmult_le_0_compat _ _ Hs Hdt) as Hp. lra.
Qed.

(** C2.  For every current angle of the domain (at or above the floor, as
    it is in every reachable state), every bend speed above zero and every
    elapsed time of at least zero, one simulation step while bending
    produces an angle that is at most the input angle and never below the
    floor; when the current angle minus speed times elapsed time falls
    below the floor, the new angle is the floor exactly. *)
Theorem update_clamps :
  forall (dt : Q) (w : World),
    isBending w = true -> 0 < bendSpeed w -> 0 <= dt ->
    MIN_ANGLE <= currentAngle w ->
    currentAngle (update dt w) <= currentAngle w /\
    MIN_ANGLE <= currentAngle (update dt w) /\
    (currentAngle w - bendSpeed w * dt < MIN_ANGLE ->
       currentAngle (update dt w) = MIN_ANGLE).
Proof.
  intros dt w Hb Hs Hdt Hfl.
  split.
  { apply update_decreases; try assumption. apply Qlt_le_weak. exact Hs. }
  split; [apply update_floor; exact Hb|].
  intro Hlt. rewrite update_currentAngle by exact Hb.
  apply Qlt_bool_iff in Hlt. rewrite Hlt. reflexivity.
Qed.

Lemma update_clamps_witness :
  currentAngle (update 1 late_bend) <= currentAngle late_bend /\
  MIN_ANGLE <= currentAngle (update 1 late_bend) /\
  currentAngle (update 1 late_bend) = MIN_ANGLE.
Proof.
  destruct (update_clamps 1 late_bend) as (Hle & Hfloor & Hclamp).
  - reflexivity.
  - reflexivity.
  - discriminate.
  - discriminate.
  - split; [exact Hle|]. split; [exact Hfloor|].
    apply Hclamp. reflexivity.
Defined.

(** *** Stopping a round *)

Lemma update_forced_stop (dt : Q) (w : World) :
  isBending w = true -> gamePhase w = BENDING ->
  currentAngle w - bendSpeed w * dt < MIN_ANGLE ->
  update dt w =
    mkWorld (score w + points MIN_ANGLE (targetAngle w)) (level w)
      (currentRound w + 1) (targetAngle w) MIN_ANGLE false STOPPED
      (startTime w) (bendSpeed w) (lastTime w) true display_inline_block.
Proof.
  intros Hb Hp Hlt. rewrite update_clamped by assumption.
  rewrite stopBending_bending by exact Hp. reflexivity.
Qed.

Lemma update_stopped (dt : Q) (w : World) :
  gamePhase w = STOPPED ->
  gamePhase (update dt w) = STOPPED /\
  score (update dt w) = score w /\
  currentRound (update dt w) = currentRound w.
Proof.
  intro Hp. unfold update. destruct (isBending w); [|auto].
  simpl. destruct (Qlt_bool (currentAngle w - bendSpeed w * dt) MIN_ANGLE).
  - unfold stopBending. simpl. rewrite Hp. simpl. auto.
  - simpl. auto.
Qed.

(** C3.  A stop, manual while the phase is Bending or forced when a tick
    takes the angle below the floor, moves the phase to Stopped, adds the
    points for the current angle (the clamped one in the forced case) to the
    score and increments the round counter by one.  After either stop a
    further manual stop, toggle or tick changes nothing, and in any state
    whose phase is Stopped a manual stop or toggle changes nothing and a
    tick leaves phase, score and round counter alone. *)
Theorem stop_scores_once :
  forall (now dt dt' : Q) (w : World),
    (gamePhase w = BENDING ->
       toggleAction now w = stopBending w /\
       gamePhase (stopBending w) = STOPPED /\
       isBending (stopBending w) = false /\
       score (stopBending w) =
         (score w + points (currentAngle w) (targetAngle w))%Z /\
       currentRound (stopBending w) = (currentRound w + 1)%Z /\
       stopBending (stopBending w) = stopBending w /\
       toggleAction now (stopBending w) = stopBending w /\
       update dt' (stopBending w) = stopBending w) /\
    (gamePhase w = BENDING -> isBending w = true ->
     currentAngle w - bendSpeed w * dt < MIN_ANGLE ->
       gamePhase (update dt w) = STOPPED /\
       isBending (update dt w) = false /\
       currentAngle (update dt w) = MIN_ANGLE /\
       score (update dt w) = (score w + points MIN_ANGLE (targetAngle w))%Z /\
       currentRound (update dt w) = (currentRound w + 1)%Z /\
       stopBending (update dt w) = update dt w /\
       toggleAction now (update dt w) = update dt w /\
       update dt' (update dt w) = update dt w) /\
    (gamePhase w = STOPPED ->
       stopBending w = w /\ toggleAction now w = w /\
       gamePhase (update dt w) = STOPPED /\
       score (update dt w) = score w /\
       currentRound (update dt w) = currentRound w).
Proof.
  intros now dt dt' w. split; [|split].
  - intro Hp. rewrite toggleAction_bending by exact Hp.
    rewrite (stopBending_bending w Hp).
    repeat split; reflexivity.
  - intros Hp Hb Hlt. rewrite (update_forced_stop dt w Hb Hp Hlt).
    repeat split; reflexivity.
  - intro Hp.
    split; [apply stopBending_guard; congruence|].
    split; [apply toggleAction_other; congruence|].
    apply update_stopped. exact Hp.
Qed.

Lemma stop_scores_once_witness :
  gamePhase (stopBending late_bend) = STOPPED /\
  score (stopBending late_bend) =
    (score late_bend + points (currentAngle late_bend) (targetAngle late_bend))%Z /\
  currentRound (stopBending late_bend) = (currentRound late_bend + 1)%Z /\
  gamePhase (update 1 late_bend) = STOPPED /\
  currentAngle (update 1 late_bend) = MIN_ANGLE /\
  score (update 1 late_bend) =
    (score late_bend + points MIN_ANGLE (targetAngle late_bend))%Z /\
  currentRound (update 1 late_bend) = (currentRound late_bend + 1)%Z /\
  update 5 (update 1 late_bend) = update 1 late_bend.
Proof.
  pose proof (stop_scores_once 0 1 5 late_bend) as [Hm [Hf _]].
  specialize (Hm eq_refl).
  specialize (Hf eq_refl eq_refl eq_refl).
  destruct Hm as (_ & Hp & _ & Hs & Hr & _).
  destruct Hf as (Hp' & _ & Ha & Hs' & Hr' & _ & _ & Hu).
  exact (conj Hp (conj Hs (conj Hr (conj Hp' (conj Ha (conj Hs' (conj Hr' Hu))))))).
Defined.

Example late_bend_scores :
  score (stopBending late_bend) = 100%Z /\
  score (update 1 late_bend) = 175%Z /\
  currentRound (update 1 late_bend) = 4%Z.
Proof. vm_compute. repeat split. Qed.

(** The "exactly three seconds" scenario: 180 - 30 * 3 = 90 on target 90. *)
Example three_seconds_on_target :
  let w := update 3 mid_bend in
  currentAngle w == 90 /\ score (stopBending w) = 100%Z.
Proof. split; reflexivity. Qed.

(** C10.  For every elapsed time, a simulation step taken while
    [isBending] is false leaves the whole state as it is; a step that
    changes the state was taken while bending. *)
Theorem update_frame :
  forall (dt : Q) (w : World),
    (isBending w = false -> update dt w = w) /\
    (update dt w <> w -> isBending w = true).
Proof.
  intros dt w. split.
  - apply update_not_bending.
  - intro Hne. destruct (isBending w) eqn:E; [reflexivity|].
    exfalso. apply Hne. apply update_not_bending. exact E.
Qed.

Lemma update_frame_witness :
  update (-3) (stopBending late_bend) = stopBending late_bend /\
  isBending late_bend = true.
Proof.
  split.
  - apply (proj1 (update_frame (-3) (stopBending late_bend))). reflexivity.
  - apply (proj2 (update_frame 1 late_bend)). discriminate.
Defined.

(** *** Entering a round, ending the game *)

Section RoundLemmas.

Variable TARGET_ANGLES : list Q.

Lemma nextLevel_over (r : Random) (w : World) :
  (MAX_ROUNDS < currentRound w)%Z ->
  nextLevel TARGET_ANGLES r w = endGame w.
Proof.
  intro H. unfold nextLevel. apply Z.ltb_lt in H. rewrite H. reflexivity.
Qed.

Lemma nextLevel_enter (r : Random) (w : World) :
  (currentRound w <= MAX_ROUNDS)%Z ->
  nextLevel TARGET_ANGLES r w =
    mkWorld (score w) (currentRound w) (currentRound w)
      (random_target TARGET_ANGLES r) FLAT_ANGLE false IDLE
      (startTime w) (bendSpeed w) (lastTime w) false display_none.
Proof.
  intro H. unfold nextLevel.
  destruct (MAX_ROUNDS <? currentRound w)%Z eqn:E.
  - apply Z.ltb_lt in E. lia.
  - reflexivity.
Qed.

Lemma restartGame_enter (r : Random) (w : World) :
  restartGame TARGET_ANGLES r w =
    mkWorld 0 1 1 (random_target TARGET_ANGLES r) FLAT_ANGLE false IDLE
      (startTime w) (bendSpeed w) (lastTime w) false display_none.
Proof. reflexivity. Qed.

Lemma initGame_enter (r : Random) (d0 : bool) (n0 : Display) :
  initGame TARGET_ANGLES r d0 n0 =
    mkWorld 0 1 1 (random_target TARGET_ANGLES r) FLAT_ANGLE false IDLE
      0 30 None false display_none.
Proof. reflexivity. Qed.

Lemma random_index_range (r : Random) :
  TARGET_ANGLES <> [] ->
  (0 <= random_index TARGET_ANGLES r < Z.of_nat (length TARGET_ANGLES))%Z.
Proof.
  intro Hne. unfold random_index.
  set (n := Z.of_nat (length TARGET_ANGLES)).
  assert (Hn : (0 < n)%Z).
  { subst n. destruct TARGET_ANGLES; [congruence|]. simpl length. lia. }
  pose proof (proj1 (Qle_bool_iff _ _) (rnd_ge_0 r)) as H0.
  pose proof (proj1 (Qlt_bool_iff _ _) (rnd_lt_1 r)) as H1.
  assert (HnQ : 0 < inject_Z n).
  { change 0 with (inject_Z 0). rewrite <- Zlt_Qlt. exact Hn. }
  split.
  - rewrite <- (Qfloor_Z 0). apply Qfloor_resp_le.
    change (inject_Z 0) with 0. apply Qmult_le_0_compat; [exact H0|].
    apply Qlt_le_weak. exact HnQ.
  - rewrite Zlt_Qlt.
    apply Qle_lt_trans with (r * inject_Z n); [apply Qfloor_le|].
    rewrite <- (Qmult_1_l (inject_Z n)) at 2.
    apply Qmult_lt_compat_r; assumption.
Qed.

Lemma random_target_In (r : Random) :
  TARGET_ANGLES <> [] -> In (random_target TARGET_ANGLES r) TARGET_ANGLES.
Proof.
  intro Hne. unfold random_target. apply nth_In.
  pose proof (random_index_range r Hne). lia.
Qed.

End RoundLemmas.

Example random_target_main_half : random_target TARGET_ANGLES_main half = 100.
Proof. reflexivity. Qed.

Example random_target_part_000_half :
  random_target TARGET_ANGLES_part_000 half = 135.
Proof. reflexivity. Qed.

(** *** What every reachable state satisfies *)

Ltac close_field :=
  simpl in *; unfold MIN_ANGLE, FLAT_ANGLE, MAX_ROUNDS in *;
  first
    [ reflexivity
    | assumption
    | discriminate
    | split; intro; (discriminate || congruence)
    | intro; congruence
    | intros [?|?]; (discriminate || congruence || lia)
    | split; (discriminate || assumption || lra)
    | lia ].

Lemma Consistent_entered (s l c : Z) (t st sp : Q) (lt : option Q) :
  sp = 30 -> (c <= MAX_ROUNDS)%Z ->
  Consistent
    (mkWorld s l c t FLAT_ANGLE false IDLE st sp lt false display_none).
Proof. intros Hs Hc. constructor; close_field. Qed.

Lemma Consistent_endGame (w : World) :
  Consistent w -> (MAX_ROUNDS < currentRound w)%Z -> Consistent (endGame w).
Proof.
  intros [Ha Hs Hf Hr Ho Hn] Hc.
  assert (Hb : isBending w = false).
  { destruct (isBending w) eqn:E; [|reflexivity].
    assert (gamePhase w = BENDING) by (apply Hf; reflexivity).
    assert (currentRound w <= MAX_ROUNDS)%Z by (apply Ho; right; assumption).
    lia. }
  unfold endGame. constructor; simpl; try assumption.
  - rewrite Hb. split; discriminate.
  - discriminate.
  - intros [?|?]; discriminate.
  - reflexivity.
Qed.

Lemma Consistent_startBending (now : Q) (w : World) :
  Consistent w -> Consistent (startBending now w).
Proof.
  intros Hc. destruct (Phase_eqb (gamePhase w) IDLE) eqn:E.
  - apply Phase_eqb_eq in E. rewrite (startBending_idle now w E).
    destruct Hc as [Ha Hs Hf Hr Ho Hn].
    constructor; simpl; try assumption.
    + split; reflexivity.
    + discriminate.
    + intros _. apply Ho. left. exact E.
    + intros _. apply Hn. congruence.
  - apply Phase_eqb_neq in E. rewrite (startBending_guard now w E). exact Hc.
Qed.

Lemma Consistent_stopBending (w : World) :
  Consistent w -> Consistent (stopBending w).
Proof.
  intros Hc. destruct (Phase_eqb (gamePhase w) BENDING) eqn:E.
  - apply Phase_eqb_eq in E. rewrite (stopBending_bending w E).
    destruct Hc as [Ha Hs Hf Hr Ho Hn].
    constructor; simpl; try assumption.
    + split; discriminate.
    + discriminate.
    + intros [?|?]; discriminate.
    + congruence.
  - apply Phase_eqb_neq in E. rewrite (stopBending_guard w E). exact Hc.
Qed.

Lemma Consistent_toggleAction (now : Q) (w : World) :
  Consistent w -> Consistent (toggleAction now w).
Proof.
  intro Hc. unfold toggleAction.
  destruct (Phase_eqb (gamePhase w) IDLE);
    [apply Consistent_startBending; exact Hc|].
  destruct (Phase_eqb (gamePhase w) BENDING);
    [apply Consistent_stopBending; exact Hc|exact Hc].
Qed.

Lemma Consistent_set_currentAngle (a : Q) (w : World) :
  Consistent w -> MIN_ANGLE <= a -> a <= FLAT_ANGLE ->
  Consistent (set_currentAngle a w).
Proof.
  intros [Ha Hs Hf Hr Ho Hn] H1 H2.
  constructor; simpl; try assumption. split; assumption.
Qed.

Lemma Consistent_update (dt : Q) (w : World) :
  Consistent w -> 0 <= dt -> Consistent (update dt w).
Proof.
  intros Hc Hdt. destruct (isBending w) eqn:Hb.
  - assert (Hdec : currentAngle w - bendSpeed w * dt <= currentAngle w).
    { rewrite (speed_fixed w Hc).
      assert (0 <= 30 * dt) by (apply Qmult_le_0_compat; [discriminate|exact Hdt]).
      lra. }
    pose proof (angle_in_range w Hc) as [Hlo Hhi].
    destruct (Qlt_le_dec (currentAngle w - bendSpeed w * dt) MIN_ANGLE) as [Hlt|Hle].
    + rewrite (update_clamped dt w Hb Hlt).
      apply Consistent_stopBending.
      change (Consistent (set_currentAngle MIN_ANGLE w)).
      apply Consistent_set_currentAngle;
        [ exact Hc | apply Qle_refl | unfold MIN_ANGLE, FLAT_ANGLE; discriminate ].
    + rewrite (update_free dt w Hb Hle).
      apply Consistent_set_currentAngle; [exact Hc|exact Hle|].
      apply Qle_trans with (currentAngle w); assumption.
  - rewrite (update_not_bending dt w Hb). exact Hc.
Qed.

Section ReachableStates.

Variable TARGET_ANGLES : list Q.

Lemma Consistent_nextLevel (r : Random) (w : World) :
  Consistent w -> Consistent (nextLevel TARGET_ANGLES r w).
Proof.
  intro Hc. destruct (Z_lt_le_dec MAX_ROUNDS (currentRound w)) as [Hlt|Hle].
  - rewrite (nextLevel_over TARGET_ANGLES r w Hlt).
    apply Consistent_endGame; assumption.
  - rewrite (nextLevel_enter TARGET_ANGLES r w Hle).
    apply Consistent_entered; [apply (speed_fixed w Hc)|exact Hle].
Qed.

Lemma Consistent_restartGame (r : Random) (w : World) :
  Consistent w -> Consistent (restartGame TARGET_ANGLES r w).
Proof.
  intro Hc. rewrite restartGame_enter.
  apply Consistent_entered; [apply (speed_fixed w Hc)|unfold MAX_ROUNDS; lia].
Qed.

Lemma Consistent_handle (e : Event) (w : World) :
  Consistent w -> admissible e -> Consistent (handle TARGET_ANGLES e w).
Proof.
  intros Hc Ha. destruct e as [now|r|dt|r]; cbn [handle].
  - apply Consistent_toggleAction; exact Hc.
  - apply Consistent_nextLevel; exact Hc.
  - apply Consistent_update; assumption.
  - apply Consistent_restartGame; exact Hc.
Qed.

Lemma Reachable_Consistent (w : World) :
  Reachable TARGET_ANGLES w -> Consistent w.
Proof.
  induction 1 as [r d0 n0|e w Hr IH Ha].
  - rewrite initGame_enter.
    apply Consistent_entered; [reflexivity|unfold MAX_ROUNDS; lia].
  - apply Consistent_handle; assumption.
Qed.

(** The target angle, once drawn, is a candidate for good. *)
Lemma handle_targetAngle (e : Event) (w : World) :
  TARGET_ANGLES <> [] ->
  In (targetAngle w) TARGET_ANGLES ->
  In (targetAngle (handle TARGET_ANGLES e w)) TARGET_ANGLES.
Proof.
  intros Hne Hin. destruct e as [now|r|dt|r]; cbn [handle].
  - unfold toggleAction, startBending.
    destruct (Phase_eqb (gamePhase w) IDLE); simpl; [exact Hin|].
    destruct (Phase_eqb (gamePhase w) BENDING); [|exact Hin].
    rewrite stopBending_targetAngle. exact Hin.
  - unfold nextLevel. destruct (MAX_ROUNDS <? currentRound w)%Z; simpl.
    + exact Hin.
    + apply random_target_In. exact Hne.
  - rewrite update_targetAngle. exact Hin.
  - rewrite restartGame_enter. simpl. apply random_target_In. exact Hne.
Qed.

Lemma Reachable_targetAngle (w : World) :
  TARGET_ANGLES <> [] ->
  Reachable TARGET_ANGLES w -> In (targetAngle w) TARGET_ANGLES.
Proof.
  intros Hne. induction 1 as [r d0 n0|e w Hr IH Ha].
  - rewrite initGame_enter. simpl. apply random_target_In. exact Hne.
  - apply handle_targetAngle; assumption.
Qed.

End ReachableStates.

(** *** Sample sessions *)

Example bending_state :
  gamePhase bending = BENDING /\ isBending bending = true /\
  currentAngle bending == 135 /\ targetAngle bending = 100.
Proof. vm_compute. repeat split. Qed.

Example finished_state :
  gamePhase finished = GAMEOVER /\ score finished = 500%Z /\
  currentRound finished = 11%Z /\ isBending finished = false.
Proof. vm_compute. repeat split. Qed.

Lemma Reachable_run (TARGET_ANGLES : list Q) (es : list Event) :
  forall w : World,
    Reachable TARGET_ANGLES w -> Forall admissible es ->
    Reachable TARGET_ANGLES (run TARGET_ANGLES es w).
Proof.
  induction es as [|e es IH]; intros w Hr Hes; simpl.
  - exact Hr.
  - inversion Hes; subst. apply IH; [|assumption].
    apply reach_step; assumption.
Qed.

Ltac admissible_events :=
  repeat (apply Forall_cons; [first [exact I | discriminate]|]); apply Forall_nil.

Lemma Reachable_loaded : Reachable TARGET_ANGLES_main loaded.
Proof. apply reach_init. Qed.

Lemma Reachable_bending : Reachable TARGET_ANGLES_main bending.
Proof.
  apply Reachable_run; [apply Reachable_loaded|]. admissible_events.
Qed.

Lemma Reachable_finished : Reachable TARGET_ANGLES_main finished.
Proof.
  apply Reachable_run; [apply Reachable_loaded|].
  unfold ten_rounds, one_round. simpl. admissible_events.
Qed.

Example last_stop_state :
  gamePhase last_stop = STOPPED /\ currentRound last_stop = 11%Z /\
  btnNext_display last_stop = display_inline_block /\
  nextLevel TARGET_ANGLES_main half last_stop = finished.
Proof. vm_compute. repeat split. Qed.

Lemma last_stop_round : (MAX_ROUNDS < currentRound last_stop)%Z.
Proof. vm_compute. reflexivity. Qed.

Lemma Reachable_last_stop : Reachable TARGET_ANGLES_main last_stop.
Proof.
  apply Reachable_run; [apply Reachable_loaded|].
  unfold ten_rounds, one_round. simpl. admissible_events.
Qed.

(** *** The angle stays between the floor and flat *)

Lemma update_angle_ok (dt : Q) (w : World) :
  angle_ok w -> 0 <= bendSpeed w -> 0 <= dt -> angle_ok (update dt w).
Proof.
  intros [Hlo Hhi] Hs Hdt. destruct (isBending w) eqn:Hb.
  - split; [apply update_floor; exact Hb|].
    apply Qle_trans with (currentAngle w); [|exact Hhi].
    apply update_decreases; assumption.
  - rewrite (update_not_bending dt w Hb). split; assumption.
Qed.

Lemma FLAT_ANGLE_ok : MIN_ANGLE <= FLAT_ANGLE <= FLAT_ANGLE.
Proof. split; discriminate. Qed.

(** C6.  In every reachable state (frames carrying non-negative elapsed
    times) the current angle lies between [MIN_ANGLE] and 180 and the bend
    speed is 30.  From any state with the angle in that interval, start,
    stop, toggle, next and restart lead to a state with the angle in it,
    and so does a simulation step when bend speed and elapsed time are not
    negative.  Entering a round, at page load, by [nextLevel] or by
    [restartGame], sets the angle to 180. *)
Theorem currentAngle_in_range :
  forall (TARGET_ANGLES : list Q) (w : World),
    (Reachable TARGET_ANGLES w -> angle_ok w /\ bendSpeed w = 30) /\
    (angle_ok w ->
     forall (now : Q) (r : Random),
       angle_ok (startBending now w) /\
       angle_ok (stopBending w) /\
       angle_ok (toggleAction now w) /\
       angle_ok (nextLevel TARGET_ANGLES r w) /\
       angle_ok (restartGame TARGET_ANGLES r w) /\
       (forall dt : Q, 0 <= bendSpeed w -> 0 <= dt -> angle_ok (update dt w))) /\
    (forall r : Random, (currentRound w <= MAX_ROUNDS)%Z ->
       gamePhase (nextLevel TARGET_ANGLES r w) = IDLE /\
       currentAngle (nextLevel TARGET_ANGLES r w) = FLAT_ANGLE) /\
    (forall r : Random,
       gamePhase (restartGame TARGET_ANGLES r w) = IDLE /\
       currentAngle (restartGame TARGET_ANGLES r w) = FLAT_ANGLE) /\
    (forall (r : Random) (d0 : bool) (n0 : Display),
       gamePhase (initGame TARGET_ANGLES r d0 n0) = IDLE /\
       currentAngle (initGame TARGET_ANGLES r d0 n0) = FLAT_ANGLE).
Proof.
  intros TA w. split.
  { intro Hr. pose proof (Reachable_Consistent TA w Hr) as Hc.
    split; [apply (angle_in_range w Hc)|apply (speed_fixed w Hc)]. }
  split.
  { intros Hok now r.
    assert (Hstart : angle_ok (startBending now w)).
    { unfold angle_ok, startBending.
      destruct (negb (Phase_eqb (gamePhase w) IDLE)); exact Hok. }
    assert (Hstop : angle_ok (stopBending w)).
    { unfold angle_ok. rewrite stopBending_currentAngle. exact Hok. }
    split; [exact Hstart|]. split; [exact Hstop|].
    split.
    { unfold toggleAction. destruct (Phase_eqb (gamePhase w) IDLE); [exact Hstart|].
      destruct (Phase_eqb (gamePhase w) BENDING); [exact Hstop|exact Hok]. }
    split.
    { unfold angle_ok, nextLevel.
      destruct (MAX_ROUNDS <? currentRound w)%Z; [exact Hok|exact FLAT_ANGLE_ok]. }
    split; [exact FLAT_ANGLE_ok|].
    intros dt Hs Hdt. apply update_angle_ok; assumption. }
  split.
  { intros r Hle. rewrite (nextLevel_enter TA r w Hle). split; reflexivity. }
  split; [intro r; split; reflexivity|].
  intros r d0 n0. split; reflexivity.
Qed.

Lemma currentAngle_in_range_witness :
  angle_ok bending /\
  angle_ok (update 10 bending) /\
  currentAngle (nextLevel TARGET_ANGLES_main zero bending) = FLAT_ANGLE.
Proof.
  pose proof (currentAngle_in_range TARGET_ANGLES_main bending)
    as (Hreach & Hstep & Hnext & _).
  destruct (Hreach Reachable_bending) as [Hok Hspeed].
  destruct (Hstep Hok 0 zero) as (_ & _ & _ & _ & _ & Hup).
  split; [exact Hok|]. split.
  - apply Hup; [rewrite Hspeed|]; discriminate.
  - apply Hnext. discriminate.
Defined.

(** *** The bend flag and the phase agree *)

Lemma startBending_flag_ok (now : Q) (w : World) :
  flag_ok w -> flag_ok (startBending now w).
Proof.
  intro Hok. unfold flag_ok, startBending.
  destruct (negb (Phase_eqb (gamePhase w) IDLE)); [exact Hok|].
  simpl. split; reflexivity.
Qed.

Lemma stopBending_flag_ok (w : World) : flag_ok w -> flag_ok (stopBending w).
Proof.
  intro Hok. unfold flag_ok, stopBending.
  destruct (negb (Phase_eqb (gamePhase w) BENDING)); [exact Hok|].
  simpl. split; discriminate.
Qed.

Lemma update_flag_ok (dt : Q) (w : World) : flag_ok w -> flag_ok (update dt w).
Proof.
  intro Hok. unfold update. destruct (isBending w); [|exact Hok]. simpl.
  destruct (Qlt_bool (currentAngle w - bendSpeed w * dt) MIN_ANGLE);
    [|exact Hok].
  apply stopBending_flag_ok. exact Hok.
Qed.

Lemma endGame_flag_ok (w : World) :
  flag_ok w -> gamePhase w <> BENDING -> flag_ok (endGame w).
Proof.
  unfold flag_ok. intros Hok Hp. simpl. split; [|discriminate].
  intro Hb. exfalso. apply Hp. apply Hok. exact Hb.
Qed.

(** C8.  In every reachable state [isBending] is true exactly when the
    phase is Bending, and the state after any event handler has the same
    property; the round counter is at most [MAX_ROUNDS] while the phase is
    Idle or Bending, so that [endGame], which leaves the flag alone and is
    called only with the counter above [MAX_ROUNDS], never runs during a
    bend.  From any state with the property, start, stop, toggle, restart,
    a simulation step and [nextLevel] entering a round keep it, and
    [endGame] keeps it when the phase is not Bending. *)
Theorem isBending_iff_Bending :
  forall (TARGET_ANGLES : list Q) (w : World),
    (Reachable TARGET_ANGLES w ->
       flag_ok w /\
       (forall e : Event, admissible e -> flag_ok (handle TARGET_ANGLES e w)) /\
       (gamePhase w = IDLE \/ gamePhase w = BENDING ->
          (currentRound w <= MAX_ROUNDS)%Z) /\
       ((MAX_ROUNDS < currentRound w)%Z -> flag_ok (endGame w))) /\
    (flag_ok w ->
     forall (now dt : Q) (r : Random),
       flag_ok (startBending now w) /\
       flag_ok (stopBending w) /\
       flag_ok (toggleAction now w) /\
       flag_ok (restartGame TARGET_ANGLES r w) /\
       flag_ok (update dt w) /\
       ((currentRound w <= MAX_ROUNDS)%Z ->
          flag_ok (nextLevel TARGET_ANGLES r w)) /\
       (gamePhase w <> BENDING ->
          flag_ok (endGame w) /\ flag_ok (nextLevel TARGET_ANGLES r w))).
Proof.
  intros TA w. split.
  { intro Hr. pose proof (Reachable_Consistent TA w Hr) as Hc.
    split; [apply (flag_is_phase w Hc)|].
    split.
    { intros e He. apply flag_is_phase. apply Consistent_handle; assumption. }
    split; [apply (round_open w Hc)|].
    intro Hlt. apply flag_is_phase. apply Consistent_endGame; assumption. }
  intros Hok now dt r.
  split; [apply startBending_flag_ok; exact Hok|].
  split; [apply stopBending_flag_ok; exact Hok|].
  split.
  { unfold toggleAction.
    destruct (Phase_eqb (gamePhase w) IDLE);
      [apply startBending_flag_ok; exact Hok|].
    destruct (Phase_eqb (gamePhase w) BENDING);
      [apply stopBending_flag_ok; exact Hok|exact Hok]. }
  split; [rewrite restartGame_enter; split; discriminate|].
  split; [apply update_flag_ok; exact Hok|].
  split.
  { intro Hle. rewrite (nextLevel_enter TA r w Hle). split; discriminate. }
  intro Hp. split; [apply endGame_flag_ok; assumption|].
  unfold nextLevel. destruct (MAX_ROUNDS <? currentRound w)%Z.
  - apply endGame_flag_ok; assumption.
  - split; discriminate.
Qed.

Lemma isBending_iff_Bending_witness :
  flag_ok bending /\
  flag_ok (toggleAction 9 bending) /\
  flag_ok (endGame last_stop).
Proof.
  pose proof (isBending_iff_Bending TARGET_ANGLES_main bending)
    as (Hreach & Hkeep).
  destruct (Hreach Reachable_bending) as (Hb & _).
  destruct (Hkeep Hb 9 0 zero) as (_ & _ & Ht & _).
  pose proof (isBending_iff_Bending TARGET_ANGLES_main last_stop)
    as (Hlast & _).
  destruct (Hlast Reachable_last_stop) as (_ & _ & _ & He).
  split; [exact Hb|]. split; [exact Ht|]. apply He. exact last_stop_round.
Defined.

(** *** The target angle *)

(** C7.  In every reachable state (terminal or not) the target angle is
    one of the candidate angles.  Starting, stopping and simulation steps
    never change it; [nextLevel] and [restartGame] change it only when they
    enter Idle for a round, with the angle back at 180; and the next button
    is shown only while the phase is Stopped, that is between rounds. *)
Theorem targetAngle_candidate :
  forall TARGET_ANGLES : list Q,
    TARGET_ANGLES <> [] ->
    forall w : World,
      Reachable TARGET_ANGLES w ->
      In (targetAngle w) TARGET_ANGLES /\
      (forall now : Q,
         targetAngle (startBending now w) = targetAngle w /\
         targetAngle (stopBending w) = targetAngle w /\
         targetAngle (toggleAction now w) = targetAngle w) /\
      (forall dt : Q, targetAngle (update dt w) = targetAngle w) /\
      targetAngle (endGame w) = targetAngle w /\
      (forall (r : Random) (w' : World),
         w' = nextLevel TARGET_ANGLES r w \/
         w' = restartGame TARGET_ANGLES r w ->
         targetAngle w' = targetAngle w \/
         (gamePhase w' = IDLE /\ isBending w' = false /\
          currentAngle w' = FLAT_ANGLE /\
          targetAngle w' = random_target TARGET_ANGLES r)) /\
      (btnNext_display w = display_inline_block -> gamePhase w = STOPPED).
Proof.
  intros TA Hne w Hr. pose proof (Reachable_Consistent TA w Hr) as Hc.
  split; [apply Reachable_targetAngle; assumption|].
  split.
  { intro now.
    assert (Hstart : targetAngle (startBending now w) = targetAngle w).
    { unfold startBending.
      destruct (negb (Phase_eqb (gamePhase w) IDLE)); reflexivity. }
    split; [exact Hstart|]. split; [apply stopBending_targetAngle|].
    unfold toggleAction. destruct (Phase_eqb (gamePhase w) IDLE); [exact Hstart|].
    destruct (Phase_eqb (gamePhase w) BENDING);
      [apply stopBending_targetAngle|reflexivity]. }
  split; [intro dt; apply update_targetAngle|].
  split; [reflexivity|].
  split.
  { intros r w' [Hw|Hw]; subst w'.
    - destruct (Z_lt_le_dec MAX_ROUNDS (currentRound w)) as [Hlt|Hle].
      + left. rewrite (nextLevel_over TA r w Hlt). reflexivity.
      + right. rewrite (nextLevel_enter TA r w Hle). repeat split.
    - right. rewrite restartGame_enter. repeat split. }
  intro Hshown.
  destruct (Phase_eqb (gamePhase w) STOPPED) eqn:E.
  - apply Phase_eqb_eq. exact E.
  - apply Phase_eqb_neq in E. pose proof (next_hidden w Hc E). congruence.
Qed.

Lemma TARGET_ANGLES_main_nonempty : TARGET_ANGLES_main <> [].
Proof. discriminate. Qed.

Lemma TARGET_ANGLES_part_000_nonempty : TARGET_ANGLES_part_000 <> [].
Proof. discriminate. Qed.

Lemma targetAngle_candidate_witness :
  In (targetAngle bending) TARGET_ANGLES_main /\
  targetAngle (update 10 bending) = targetAngle bending.
Proof.
  pose proof (targetAngle_candidate TARGET_ANGLES_main
                TARGET_ANGLES_main_nonempty bending Reachable_bending)
    as (Hin & _ & Hup & _).
  split; [exact Hin|apply Hup].
Defined.

(** *** Game over *)

Lemma endGame_session (w : World) :
  score (endGame w) = score w /\
  currentRound (endGame w) = currentRound w /\
  targetAngle (endGame w) = targetAngle w /\
  currentAngle (endGame w) = currentAngle w /\
  isBending (endGame w) = isBending w.
Proof. repeat split. Qed.

Lemma endGame_again (w : World) : endGame (endGame w) = endGame w.
Proof. reflexivity. Qed.

Section GameOver.

Variable TARGET_ANGLES : list Q.

Lemma handle_endGame (e : Event) (w : World) :
  (MAX_ROUNDS < currentRound w)%Z ->
  is_restart e = false ->
  is_frame e = false \/ isBending w = false ->
  handle TARGET_ANGLES e (endGame w) = endGame w.
Proof.
  intros Hlt Hr Hf. destruct e as [now|r|dt|r]; cbn [handle].
  - apply toggleAction_other; simpl; discriminate.
  - rewrite nextLevel_over by exact Hlt. apply endGame_again.
  - destruct Hf as [Hf|Hf]; [discriminate|].
    apply update_not_bending. exact Hf.
  - discriminate.
Qed.

Lemma run_endGame (es : list Event) (w : World) :
  (MAX_ROUNDS < currentRound w)%Z ->
  Forall (fun e => is_restart e = false /\
                   (is_frame e = false \/ isBending w = false)) es ->
  run TARGET_ANGLES es (endGame w) = endGame w.
Proof.
  intros Hlt. induction 1 as [|e es [Hr Hf] _ IH]; simpl.
  - reflexivity.
  - rewrite handle_endGame by assumption. exact IH.
Qed.

End GameOver.

(** C5.  When [nextLevel] runs with the round counter above [MAX_ROUNDS]
    the phase becomes GameOver and the other session fields stay as they
    are; after that, every sequence of toggle and next events leaves the
    whole state unchanged, and so does every sequence that also contains
    frames when the bend flag was off (as it is in every reachable state
    with the counter above [MAX_ROUNDS]); only a restart leaves GameOver. *)
Theorem game_over_absorbs :
  forall (TARGET_ANGLES : list Q) (r : Random) (w : World),
    (MAX_ROUNDS < currentRound w)%Z ->
    gamePhase (nextLevel TARGET_ANGLES r w) = GAMEOVER /\
    score (nextLevel TARGET_ANGLES r w) = score w /\
    currentRound (nextLevel TARGET_ANGLES r w) = currentRound w /\
    targetAngle (nextLevel TARGET_ANGLES r w) = targetAngle w /\
    currentAngle (nextLevel TARGET_ANGLES r w) = currentAngle w /\
    (forall es : list Event,
       Forall (fun e => is_restart e = false /\ is_frame e = false) es ->
       run TARGET_ANGLES es (nextLevel TARGET_ANGLES r w) =
       nextLevel TARGET_ANGLES r w) /\
    (isBending w = false ->
     forall es : list Event,
       Forall (fun e => is_restart e = false) es ->
       run TARGET_ANGLES es (nextLevel TARGET_ANGLES r w) =
       nextLevel TARGET_ANGLES r w) /\
    (Reachable TARGET_ANGLES w -> isBending w = false) /\
    (forall r' : Random,
       gamePhase (restartGame TARGET_ANGLES r'
                    (nextLevel TARGET_ANGLES r w)) = IDLE).
Proof.
  intros TA r w Hlt. rewrite (nextLevel_over TA r w Hlt).
  do 5 (split; [reflexivity|]).
  split.
  { intros es Hes. apply run_endGame; [exact Hlt|].
    eapply Forall_impl; [|exact Hes]. simpl. intros e [H1 H2]. auto. }
  split.
  { intros Hb es Hes. apply run_endGame; [exact Hlt|].
    eapply Forall_impl; [|exact Hes]. simpl. intros e H1. auto. }
  split; [|reflexivity].
  intro Hr. pose proof (Reachable_Consistent TA w Hr) as Hc.
  destruct (isBending w) eqn:E; [|reflexivity].
  assert (gamePhase w = BENDING) by (apply (flag_is_phase w Hc); exact E).
  assert (currentRound w <= MAX_ROUNDS)%Z
    by (apply (round_open w Hc); right; assumption).
  lia.
Qed.

Lemma game_over_absorbs_witness :
  gamePhase (nextLevel TARGET_ANGLES_main half last_stop) = GAMEOVER /\
  run TARGET_ANGLES_main [ev_toggle 1; ev_next zero; ev_toggle 2]
    (nextLevel TARGET_ANGLES_main half last_stop) =
  nextLevel TARGET_ANGLES_main half last_stop.
Proof.
  pose proof (game_over_absorbs TARGET_ANGLES_main half last_stop last_stop_round)
    as (Hp & _ & _ & _ & _ & Hrun & _).
  split; [exact Hp|]. apply Hrun.
  repeat (apply Forall_cons; [split; reflexivity|]). apply Forall_nil.
Defined.

(** *** Restart *)

Lemma Qfloor_unique (x : Q) (k : Z) :
  inject_Z k <= x -> x < inject_Z k + 1 -> Qfloor x = k.
Proof.
  intros Hlo Hhi.
  assert (H1 : (k <= Qfloor x)%Z).
  { rewrite <- (Qfloor_Z k). apply Qfloor_resp_le. exact Hlo. }
  assert (H2 : (Qfloor x < k + 1)%Z).
  { rewrite Zlt_Qlt. rewrite inject_Z_plus.
    apply Qle_lt_trans with x; [apply Qfloor_le|exact Hhi]. }
  lia.
Qed.

Section Draws.

Variable TARGET_ANGLES : list Q.

(** The draw takes the candidate whose index is the whole part of the
    random number times the number of candidates. *)
Lemma random_target_at (r : Random) (k : nat) :
  inject_Z (Z.of_nat k) <= r * inject_Z (Z.of_nat (length TARGET_ANGLES)) ->
  r * inject_Z (Z.of_nat (length TARGET_ANGLES)) < inject_Z (Z.of_nat k) + 1 ->
  random_target TARGET_ANGLES r = nth k TARGET_ANGLES 0.
Proof.
  intros Hlo Hhi. unfold random_target, random_index.
  rewrite (Qfloor_unique _ (Z.of_nat k) Hlo Hhi), Nat2Z.id. reflexivity.
Qed.

Lemma random_for_index (k : nat) :
  (k < length TARGET_ANGLES)%nat ->
  exists r : Random,
    r * inject_Z (Z.of_nat (length TARGET_ANGLES)) == inject_Z (Z.of_nat k).
Proof.
  intro Hk. generalize dependent (length TARGET_ANGLES). intros n Hk.
  assert (Hn : Zpos (Pos.of_nat n) = Z.of_nat n).
  { rewrite <- positive_nat_Z. rewrite Nat2Pos.id by lia. reflexivity. }
  assert (H0 : Qle_bool 0 (Z.of_nat k # Pos.of_nat n) = true).
  { apply Qle_bool_iff. unfold Qle. simpl. lia. }
  assert (H1 : Qlt_bool (Z.of_nat k # Pos.of_nat n) 1 = true).
  { apply Qlt_bool_iff. unfold Qlt. simpl. rewrite Hn. lia. }
  exists (mkRandom (Z.of_nat k # Pos.of_nat n) H0 H1).
  unfold Qeq, Qmult, inject_Z. simpl. rewrite Pos.mul_1_r, Hn. ring.
Qed.

Lemma random_target_onto (a : Q) :
  In a TARGET_ANGLES -> exists r : Random, random_target TARGET_ANGLES r = a.
Proof.
  intro Hin. destruct (In_nth TARGET_ANGLES a 0 Hin) as [k [Hk Ha]].
  destruct (random_for_index k Hk) as [r Hr].
  exists r. rewrite <- Ha. apply random_target_at; rewrite Hr.
  - apply Qle_refl.
  - rewrite <- (Qplus_0_r (inject_Z (Z.of_nat k))) at 1.
    apply Qplus_lt_r. reflexivity.
Qed.

End Draws.

(** C9.  From every state, [restartGame] sets the score to 0 and the round
    counter (and the displayed level) to 1 and enters Idle with the bend
    flag off, the angle at 180 and the toggle button enabled; the session
    fields are those of a page just loaded with the same draw.  The target
    is drawn anew: it is the candidate at the index given by the whole part
    of the random number times the number of candidates, so that each
    candidate has an interval of random numbers of the same length, every
    candidate can come up, and neither the target of the finished session
    nor anything else of the old state plays a part. *)
Theorem restartGame_fresh :
  forall TARGET_ANGLES : list Q,
    TARGET_ANGLES <> [] ->
    forall (r : Random) (w : World),
      score (restartGame TARGET_ANGLES r w) = 0%Z /\
      currentRound (restartGame TARGET_ANGLES r w) = 1%Z /\
      level (restartGame TARGET_ANGLES r w) = 1%Z /\
      gamePhase (restartGame TARGET_ANGLES r w) = IDLE /\
      isBending (restartGame TARGET_ANGLES r w) = false /\
      currentAngle (restartGame TARGET_ANGLES r w) = FLAT_ANGLE /\
      targetAngle (restartGame TARGET_ANGLES r w) =
        random_target TARGET_ANGLES r /\
      In (targetAngle (restartGame TARGET_ANGLES r w)) TARGET_ANGLES /\
      btnAction_disabled (restartGame TARGET_ANGLES r w) = false /\
      btnNext_display (restartGame TARGET_ANGLES r w) = display_none /\
      (forall (d0 : bool) (n0 : Display),
         session (restartGame TARGET_ANGLES r w) =
         session (initGame TARGET_ANGLES r d0 n0)) /\
      (forall k : nat,
         inject_Z (Z.of_nat k) <=
           r * inject_Z (Z.of_nat (length TARGET_ANGLES)) ->
         r * inject_Z (Z.of_nat (length TARGET_ANGLES)) <
           inject_Z (Z.of_nat k) + 1 ->
         targetAngle (restartGame TARGET_ANGLES r w) =
           nth k TARGET_ANGLES 0) /\
      (forall a : Q,
         In a TARGET_ANGLES ->
         exists r' : Random,
           targetAngle (restartGame TARGET_ANGLES r' w) = a) /\
      (forall w' : World,
         targetAngle (restartGame TARGET_ANGLES r w') =
         targetAngle (restartGame TARGET_ANGLES r w)).
Proof.
  intros TA Hne r w.
  assert (Hall : forall (r0 : Random) (w0 : World),
             targetAngle (restartGame TA r0 w0) = random_target TA r0).
  { intros r0 w0. rewrite restartGame_enter. reflexivity. }
  do 7 (split; [rewrite restartGame_enter; reflexivity|]).
  split; [rewrite Hall; apply random_target_In; exact Hne|].
  do 2 (split; [rewrite restartGame_enter; reflexivity|]).
  split; [intros d0 n0; rewrite restartGame_enter; reflexivity|].
  split; [intros k Hlo Hhi; rewrite Hall; apply random_target_at; assumption|].
  split; [|intro w'; rewrite !Hall; reflexivity].
  intros a Hin. destruct (random_target_onto TA a Hin) as [r' Hr'].
  exists r'. rewrite Hall. exact Hr'.
Qed.

Lemma restartGame_fresh_witness :
  score (restartGame TARGET_ANGLES_main zero finished) = 0%Z /\
  currentRound (restartGame TARGET_ANGLES_main zero finished) = 1%Z /\
  gamePhase (restartGame TARGET_ANGLES_main zero finished) = IDLE /\
  In (targetAngle (restartGame TARGET_ANGLES_main zero finished))
     TARGET_ANGLES_main /\
  targetAngle (restartGame TARGET_ANGLES_main zero finished) =
    nth 0 TARGET_ANGLES_main 0 /\
  targetAngle (restartGame TARGET_ANGLES_main half finished) =
    nth 3 TARGET_ANGLES_main 0.
Proof.
  pose proof (restartGame_fresh TARGET_ANGLES_main TARGET_ANGLES_main_nonempty
                zero finished)
    as (Hs & Hr & _ & Hp & _ & _ & _ & Hin & _ & _ & _ & Hz & _).
  pose proof (restartGame_fresh TARGET_ANGLES_main TARGET_ANGLES_main_nonempty
                half finished)
    as (_ & _ & _ & _ & _ & _ & _ & _ & _ & _ & _ & Hh & _).
  split; [exact Hs|]. split; [exact Hr|]. split; [exact Hp|].
  split; [exact Hin|]. split.
  - apply (Hz 0%nat); vm_compute; [discriminate|reflexivity].
  - apply (Hh 3%nat); vm_compute; [discriminate|reflexivity].
Defined.

(** Two restarts of the same finished session with different draws give
    different targets. *)
Example restart_draws_differ :
  targetAngle (restartGame TARGET_ANGLES_main zero finished) = 40 /\
  targetAngle (restartGame TARGET_ANGLES_main half finished) = 100.
Proof. vm_compute. split; reflexivity. Qed.

Example restart_after_ten_rounds :
  score finished = 500%Z /\
  session (restartGame TARGET_ANGLES_main zero finished) =
    (0%Z, 1%Z, 40, 180, IDLE).
Proof. vm_compute. repeat split. Qed.

(** *** Actions outside their phase *)

(** C4, as stated, fails for the next button's handler: [nextLevel] does
    not look at the phase.  Run on a loaded page (Idle) it draws another
    target; run during a bend it also puts the sheet back to 180 and the
    phase back to Idle. *)
Lemma nextLevel_unguarded :
  (gamePhase loaded = IDLE /\
   session (nextLevel TARGET_ANGLES_main zero loaded) <> session loaded /\
   targetAngle loaded = 100 /\
   targetAngle (nextLevel TARGET_ANGLES_main zero loaded) = 40) /\
  (gamePhase bending = BENDING /\
   session (nextLevel TARGET_ANGLES_main half bending) <> session bending /\
   gamePhase (nextLevel TARGET_ANGLES_main half bending) = IDLE /\
   currentAngle (nextLevel TARGET_ANGLES_main half bending) = FLAT_ANGLE).
Proof.
  vm_compute. repeat split; discriminate.
Qed.

(** C4 (amended).  In every state, stopping outside Bending, starting
    outside Idle, and the toggle outside Idle and Bending change nothing.
    The next button's handler is not guarded by the phase: in every
    reachable state whose phase is Idle or Bending the button is hidden, and
    [nextLevel] run there keeps score and round counter but enters Idle
    again, with the bend flag off, the angle at 180 and a target drawn
    anew. *)
Theorem actions_outside_phase :
  forall (TARGET_ANGLES : list Q) (now : Q) (r : Random) (w : World),
    (gamePhase w <> BENDING -> stopBending w = w) /\
    (gamePhase w <> IDLE -> startBending now w = w) /\
    (gamePhase w <> IDLE -> gamePhase w <> BENDING -> toggleAction now w = w) /\
    (Reachable TARGET_ANGLES w ->
     gamePhase w = IDLE \/ gamePhase w = BENDING ->
       btnNext_display w = display_none /\
       score (nextLevel TARGET_ANGLES r w) = score w /\
       currentRound (nextLevel TARGET_ANGLES r w) = currentRound w /\
       gamePhase (nextLevel TARGET_ANGLES r w) = IDLE /\
       isBending (nextLevel TARGET_ANGLES r w) = false /\
       currentAngle (nextLevel TARGET_ANGLES r w) = FLAT_ANGLE /\
       targetAngle (nextLevel TARGET_ANGLES r w) =
         random_target TARGET_ANGLES r).
Proof.
  intros TA now r w.
  split; [apply stopBending_guard|].
  split; [apply startBending_guard|].
  split; [apply toggleAction_other|].
  intros Hr Hp. pose proof (Reachable_Consistent TA w Hr) as Hc.
  split.
  { apply (next_hidden w Hc). destruct Hp as [Hp|Hp]; congruence. }
  rewrite (nextLevel_enter TA r w (round_open w Hc Hp)).
  repeat split.
Qed.

Lemma actions_outside_phase_witness :
  stopBending loaded = loaded /\
  startBending 7 bending = bending /\
  toggleAction 7 finished = finished /\
  btnNext_display bending = display_none /\
  gamePhase (nextLevel TARGET_ANGLES_main half bending) = IDLE.
Proof.
  pose proof (actions_outside_phase TARGET_ANGLES_main 7 half loaded)
    as (Hstop & _).
  pose proof (actions_outside_phase TARGET_ANGLES_main 7 half bending)
    as (_ & Hstart & _ & Hnext).
  pose proof (actions_outside_phase TARGET_ANGLES_main 7 half finished)
    as (_ & _ & Htoggle & _).
  destruct (Hnext Reachable_bending (or_intror eq_refl))
    as (Hhid & _ & _ & Hidle & _).
  split; [apply Hstop; discriminate|].
  split; [apply Hstart; discriminate|].
  split; [apply Htoggle; vm_compute; discriminate|].
  split; assumption.
Defined.

(** ** Further properties of the scoring *)

Lemma Qlt_bool_Qeq (x x' y y' : Q) :
  x == x' -> y == y' -> Qlt_bool x y = Qlt_bool x' y'.
Proof.
  intros Hx Hy.
  destruct (Qlt_bool x y) eqn:E, (Qlt_bool x' y') eqn:E'; try reflexivity.
  - apply Qlt_bool_iff in E. apply Qlt_bool_false_iff in E'. lra.
  - apply Qlt_bool_false_iff in E. apply Qlt_bool_iff in E'. lra.
Qed.

Lemma Qfloor_lt_1 (x : Q) : x < 1 -> (Qfloor x <= 0)%Z.
Proof.
  intro H. pose proof (Qfloor_le x) as Hf.
  assert (Hlt : inject_Z (Qfloor x) < inject_Z 1) by (change (inject_Z 1) with 1; lra).
  rewrite <- Zlt_Qlt in Hlt. lia.
Qed.

Lemma Qfloor_ge_1 (x : Q) : 1 <= x -> (1 <= Qfloor x)%Z.
Proof.
  intro H. rewrite <- (Qfloor_Z 1). apply Qfloor_resp_le. exact H.
Qed.

(** X1.  The score depends on the two angles only through the size of their
    difference: bending too far and not far enough cost the same. *)
Theorem points_by_difference :
  forall a t a' t' : Q,
    Qabs (a - t) == Qabs (a' - t') -> points a t = points a' t'.
Proof.
  intros a t a' t' H. unfold points.
  rewrite (Qlt_bool_Qeq _ (Qabs (a' - t')) (1 # 2) (1 # 2) H (Qeq_refl _)).
  destruct (Qlt_bool (Qabs (a' - t')) (1 # 2)); [reflexivity|].
  f_equal. apply Qfloor_comp. rewrite H. reflexivity.
Qed.

Lemma points_by_difference_witness : points 97 90 = points 83 90.
Proof. apply points_by_difference. reflexivity. Defined.

(** X2.  A larger miss never scores more. *)
Theorem points_antitone :
  forall a t a' t' : Q,
    Qabs (a - t) <= Qabs (a' - t') -> (points a' t' <= points a t)%Z.
Proof.
  intros a t a' t' H.
  destruct (Qlt_le_dec (Qabs (a - t)) (1 # 2)) as [Hhit|Hmiss].
  - rewrite (points_hit a t Hhit). apply points_range.
  - rewrite (points_miss a t Hmiss).
    rewrite (points_miss a' t') by lra.
    apply Z.max_le_compat_l. apply Qfloor_resp_le. lra.
Qed.

Lemma points_antitone_witness : (points 70 90 <= points 85 90)%Z.
Proof. apply points_antitone. vm_compute. discriminate. Defined.

(** X3.  A round brings 100 points exactly when the miss is below half a
    degree, and otherwise at most 97: the scores 98 and 99 do not occur. *)
Theorem points_exact_hit :
  forall a t : Q,
    (points a t = 100%Z <-> Qabs (a - t) < 1 # 2) /\
    (points a t = 100%Z \/ (points a t <= 97)%Z).
Proof.
  intros a t.
  assert (Hmiss : 1 # 2 <= Qabs (a - t) -> (points a t <= 97)%Z).
  { intro H. rewrite (points_miss a t H).
    assert (Hf : (Qfloor (100 - Qabs (a - t) * 5) <= Qfloor (195 # 2))%Z).
    { apply Qfloor_resp_le. lra. }
    change (Qfloor (195 # 2)) with 97%Z in Hf. lia. }
  destruct (Qlt_le_dec (Qabs (a - t)) (1 # 2)) as [Hhit|Hm].
  - pose proof (points_hit a t Hhit) as Hp. split; [|left; exact Hp].
    split; intro; assumption.
  - specialize (Hmiss Hm). split; [|right; exact Hmiss].
    split; intro H; [lia|lra].
Qed.

(** X4.  A round brings nothing exactly when the miss is above 19.8 degrees
    (the comment in [calculateScore] speaks of 20). *)
Theorem points_zero :
  forall a t : Q, points a t = 0%Z <-> 99 # 5 < Qabs (a - t).
Proof.
  intros a t. split.
  - intro H0.
    destruct (Qlt_le_dec (Qabs (a - t)) (1 # 2)) as [Hhit|Hm].
    + rewrite (points_hit a t Hhit) in H0. discriminate.
    + rewrite (points_miss a t Hm) in H0.
      destruct (Qlt_le_dec (99 # 5) (Qabs (a - t))) as [Hfar|Hnear]; [exact Hfar|].
      assert (1 <= Qfloor (100 - Qabs (a - t) * 5))%Z by (apply Qfloor_ge_1; lra).
      lia.
  - intro Hfar. rewrite points_miss by lra.
    assert (Qfloor (100 - Qabs (a - t) * 5) <= 0)%Z by (apply Qfloor_lt_1; lra).
    lia.
Qed.

(** ** Counters and buttons along a session *)

Ltac counted_field :=
  repeat match goal with
         | H : _ /\ _ |- _ => destruct H
         end;
  unfold MAX_ROUNDS in *;
  first
    [ assumption
    | lia
    | exact I
    | solve [intuition (try discriminate; try congruence; try lia)] ].

Lemma Counted_toggleAction (now : Q) (w : World) :
  Consistent w -> Counted w -> Counted (toggleAction now w).
Proof.
  intros [Ha Hs Hf Hr Ho Hn] [K1 K2 K3 K4 K0 K5 K6 K7].
  destruct w as [sc lv cr ta ca ib ph st sp lt bd nd];
    cbn -[Z.mul Z.add Z.sub] in *.
  pose proof (points_range ca ta) as Hp.
  unfold MAX_ROUNDS in *.
  destruct ph;
    unfold toggleAction, startBending, stopBending, calculateScore;
    cbn -[points Z.mul Z.add Z.sub];
    constructor; cbn -[points Z.mul Z.add Z.sub]; counted_field.
Qed.

Lemma Counted_update (dt : Q) (w : World) :
  Consistent w -> Counted w -> Counted (update dt w).
Proof.
  intros Hc Hk. destruct (isBending w) eqn:Hb.
  - assert (Hp : gamePhase w = BENDING) by (apply (flag_is_phase w Hc); exact Hb).
    assert (Hset : forall a, Counted (set_currentAngle a w)).
    { intro a. destruct Hk as [K1 K2 K3 K4 K0 K5 K6 K7].
      constructor; simpl; assumption. }
    destruct (Qlt_le_dec (currentAngle w - bendSpeed w * dt) MIN_ANGLE) as [Hlt|Hle].
    + rewrite (update_forced_stop dt w Hb Hp Hlt).
      destruct Hk as [K1 K2 K3 K4 K0 K5 K6 K7]. rewrite Hp in K5.
      pose proof (points_range MIN_ANGLE (targetAngle w)) as Hpts.
      assert (currentRound w <= MAX_ROUNDS)%Z
        by (apply (round_open w Hc); right; exact Hp).
      unfold MAX_ROUNDS in *.
      constructor; cbn -[points Z.mul Z.add Z.sub]; try counted_field.
    + rewrite (update_free dt w Hb Hle). apply Hset.
  - rewrite (update_not_bending dt w Hb). exact Hk.
Qed.

Lemma Counted_entered (s c : Z) (t st sp : Q) (lt : option Q) :
  (1 <= c <= MAX_ROUNDS)%Z -> (0 <= s <= 100 * (c - 1))%Z ->
  Counted (mkWorld s c c t FLAT_ANGLE false IDLE st sp lt false display_none).
Proof.
  unfold MAX_ROUNDS. intros Hc Hs.
  constructor; cbn -[Z.mul Z.sub]; try counted_field.
Qed.

Section CountedStates.

Variable TARGET_ANGLES : list Q.

Lemma Counted_nextLevel (r : Random) (w : World) :
  Consistent w -> Counted w -> Counted (nextLevel TARGET_ANGLES r w).
Proof.
  intros Hc Hk.
  destruct (Z_lt_le_dec MAX_ROUNDS (currentRound w)) as [Hlt|Hle].
  - rewrite (nextLevel_over TARGET_ANGLES r w Hlt).
    destruct Hc as [Ha Hs Hf Hr Ho Hn]. destruct Hk as [K1 K2 K3 K4 K0 K5 K6 K7].
    unfold endGame. unfold MAX_ROUNDS in *.
    constructor; cbn -[Z.mul Z.sub]; try counted_field.
    destruct (gamePhase w); counted_field.
  - rewrite (nextLevel_enter TARGET_ANGLES r w Hle).
    destruct Hk as [K1 K2 K3 K4 K0 K5 K6 K7].
    apply Counted_entered; lia.
Qed.

Lemma Counted_handle (e : Event) (w : World) :
  Consistent w -> Counted w -> Counted (handle TARGET_ANGLES e w).
Proof.
  intros Hc Hk. destruct e as [now|r|dt|r]; cbn [handle].
  - apply Counted_toggleAction; assumption.
  - apply Counted_nextLevel; assumption.
  - apply Counted_update; assumption.
  - rewrite restartGame_enter. apply Counted_entered; unfold MAX_ROUNDS; lia.
Qed.

Lemma Reachable_Counted (w : World) :
  Reachable TARGET_ANGLES w -> Counted w.
Proof.
  induction 1 as [r d0 n0|e w Hr IH Ha].
  - rewrite initGame_enter. apply Counted_entered; unfold MAX_ROUNDS; lia.
  - apply Counted_handle; [apply (Reachable_Consistent TARGET_ANGLES)|]; assumption.
Qed.

End CountedStates.

(** X5.  In every reachable state the round counter lies between 1 and 11, and
    the score between 0 and 100 points for each round finished so far, so
    that a session never shows more than 1000 points. *)
Theorem session_counters :
  forall (TARGET_ANGLES : list Q) (w : World),
    Reachable TARGET_ANGLES w ->
    (1 <= currentRound w <= MAX_ROUNDS + 1)%Z /\
    (0 <= score w <= 100 * (currentRound w - 1))%Z /\
    (score w <= 1000)%Z.
Proof.
  intros TA w Hr. destruct (Reachable_Counted TA w Hr) as [K1 K2 K3 K4 _ _ _ _].
  unfold MAX_ROUNDS in *. lia.
Qed.

Lemma session_counters_witness :
  (1 <= currentRound finished <= MAX_ROUNDS + 1)%Z /\
  (0 <= score finished <= 100 * (currentRound finished - 1))%Z /\
  (score finished <= 1000)%Z.
Proof. exact (session_counters TARGET_ANGLES_main finished Reachable_finished). Defined.

(** X6.  In every reachable state the displayed level is the round being
    played: the round counter while Idle or Bending, one less once the
    round is stopped (the counter already points at the next round), and
    [MAX_ROUNDS] when the game is over, which happens only with the counter
    at 11, after ten scored rounds.  The level stays between 1 and 10, and
    the phase RESULT named in the comment on [state.gamePhase] is never
    entered. *)
Theorem level_follows_round :
  forall (TARGET_ANGLES : list Q) (w : World),
    Reachable TARGET_ANGLES w ->
    (1 <= level w <= MAX_ROUNDS)%Z /\
    gamePhase w <> RESULT /\
    (gamePhase w = IDLE \/ gamePhase w = BENDING ->
       level w = currentRound w) /\
    (gamePhase w = STOPPED -> level w = (currentRound w - 1)%Z) /\
    (gamePhase w = GAMEOVER ->
       level w = MAX_ROUNDS /\ currentRound w = (MAX_ROUNDS + 1)%Z) /\
    (currentRound w = (MAX_ROUNDS + 1)%Z ->
       gamePhase w = STOPPED \/ gamePhase w = GAMEOVER).
Proof.
  intros TA w Hr.
  destruct (Reachable_Counted TA w Hr) as [K1 K2 K3 K4 K0 K5 _ _].
  pose proof (round_open w (Reachable_Consistent TA w Hr)) as Ho.
  unfold MAX_ROUNDS in *.
  destruct (gamePhase w) eqn:Hp; try contradiction;
    try (assert (currentRound w <= 10)%Z by (apply Ho; auto));
    repeat match goal with |- _ /\ _ => split end;
    try discriminate; try lia;
    intros; first [discriminate | lia | tauto | intuition (first [discriminate | lia])].
Qed.

Lemma level_follows_round_witness :
  (1 <= level last_stop <= MAX_ROUNDS)%Z /\
  level last_stop = (currentRound last_stop - 1)%Z /\
  currentRound finished = (MAX_ROUNDS + 1)%Z.
Proof.
  pose proof (level_follows_round TARGET_ANGLES_main last_stop Reachable_last_stop)
    as (Hl & _ & _ & Hs & _).
  pose proof (level_follows_round TARGET_ANGLES_main finished Reachable_finished)
    as (_ & _ & _ & _ & Hg & _).
  split; [exact Hl|]. split.
  - apply Hs. vm_compute. reflexivity.
  - apply Hg. vm_compute. reflexivity.
Defined.

(** X7.  In every reachable state the two buttons say what the state machine
    accepts: the toggle button is disabled exactly while the phase is
    Stopped or GameOver, which is exactly when [toggleAction] would change
    nothing, and the next button is shown exactly while the phase is
    Stopped. *)
Theorem buttons_follow_phase :
  forall (TARGET_ANGLES : list Q) (now : Q) (w : World),
    Reachable TARGET_ANGLES w ->
    (btnAction_disabled w = true <->
       gamePhase w = STOPPED \/ gamePhase w = GAMEOVER) /\
    (btnAction_disabled w = true <-> toggleAction now w = w) /\
    (btnNext_display w = display_inline_block <-> gamePhase w = STOPPED).
Proof.
  intros TA now w Hr.
  destruct (Reachable_Counted TA w Hr) as [_ _ _ _ _ K5 K6 K7].
  split; [exact K6|]. split; [|exact K7].
  rewrite K6. split.
  - intros [Hp|Hp]; apply toggleAction_other; congruence.
  - intro Hsame. destruct (gamePhase w) eqn:Hp; try tauto.
    + rewrite (toggleAction_idle now w Hp) in Hsame.
      rewrite (startBending_idle now w Hp) in Hsame.
      apply (f_equal gamePhase) in Hsame. simpl in Hsame. congruence.
    + rewrite (toggleAction_bending now w Hp) in Hsame.
      rewrite (stopBending_bending w Hp) in Hsame.
      apply (f_equal gamePhase) in Hsame. simpl in Hsame. congruence.
Qed.

Lemma buttons_follow_phase_witness :
  (btnAction_disabled bending = true <-> toggleAction 5 bending = bending) /\
  (btnNext_display last_stop = display_inline_block <->
   gamePhase last_stop = STOPPED).
Proof.
  pose proof (buttons_follow_phase TARGET_ANGLES_main 5 bending Reachable_bending)
    as (_ & Ht & _).
  pose proof (buttons_follow_phase TARGET_ANGLES_main 5 last_stop
                Reachable_last_stop) as (_ & _ & Hn).
  exact (conj Ht Hn).
Defined.

(** X8.  Apart from a restart, an event either leaves score and round counter
    as they are, or it is the stop of a bend: the phase goes from Bending to
    Stopped, the round counter goes up by one and the score by at most
    100.  Score and round counter never go down. *)
Theorem score_moves_with_round :
  forall (TARGET_ANGLES : list Q) (e : Event) (w : World),
    is_restart e = false ->
    (score (handle TARGET_ANGLES e w) = score w /\
     currentRound (handle TARGET_ANGLES e w) = currentRound w) \/
    (gamePhase w = BENDING /\
     gamePhase (handle TARGET_ANGLES e w) = STOPPED /\
     currentRound (handle TARGET_ANGLES e w) = (currentRound w + 1)%Z /\
     (score w <= score (handle TARGET_ANGLES e w) <= score w + 100)%Z).
Proof.
  intros TA e w He.
  assert (Hstop : forall v : World,
             score v = score w -> currentRound v = currentRound w ->
             gamePhase v = gamePhase w ->
             (score (stopBending v) = score w /\
              currentRound (stopBending v) = currentRound w) \/
             (gamePhase w = BENDING /\
              gamePhase (stopBending v) = STOPPED /\
              currentRound (stopBending v) = (currentRound w + 1)%Z /\
              (score w <= score (stopBending v) <= score w + 100)%Z)).
  { intros v Hs Hc Hp. destruct (Phase_eqb (gamePhase v) BENDING) eqn:E.
    - apply Phase_eqb_eq in E. right. rewrite (stopBending_bending v E).
      pose proof (points_range (currentAngle v) (targetAngle v)).
      cbn -[points Z.add]. repeat split; try congruence; lia.
    - apply Phase_eqb_neq in E. left. rewrite (stopBending_guard v E).
      split; assumption. }
  destruct e as [now|r|dt|r]; cbn [handle]; [| | |discriminate].
  - unfold toggleAction.
    destruct (Phase_eqb (gamePhase w) IDLE).
    + left. unfold startBending.
      destruct (negb (Phase_eqb (gamePhase w) IDLE)); split; reflexivity.
    + destruct (Phase_eqb (gamePhase w) BENDING); [|left; split; reflexivity].
      apply Hstop; reflexivity.
  - left. unfold nextLevel.
    destruct (MAX_ROUNDS <? currentRound w)%Z; split; reflexivity.
  - unfold update. destruct (isBending w); [|left; split; reflexivity].
    cbn [currentAngle set_currentAngle].
    destruct (Qlt_bool (currentAngle w - bendSpeed w * dt) MIN_ANGLE);
      [|left; split; reflexivity].
    apply Hstop; reflexivity.
Qed.

Lemma score_moves_with_round_witness :
  (score (handle TARGET_ANGLES_main (ev_frame 1) late_bend) = score late_bend /\
   currentRound (handle TARGET_ANGLES_main (ev_frame 1) late_bend) =
     currentRound late_bend) \/
  (gamePhase late_bend = BENDING /\
   gamePhase (handle TARGET_ANGLES_main (ev_frame 1) late_bend) = STOPPED /\
   currentRound (handle TARGET_ANGLES_main (ev_frame 1) late_bend) =
     (currentRound late_bend + 1)%Z /\
   (score late_bend <= score (handle TARGET_ANGLES_main (ev_frame 1) late_bend)
    <= score late_bend + 100)%Z).
Proof.
  apply (score_moves_with_round TARGET_ANGLES_main (ev_frame 1) late_bend).
  reflexivity.
Defined.

(** ** Runs of frames *)

Section Frames.

Variable TARGET_ANGLES : list Q.




End Frames.



(** ** The frame loop *)

Lemma gameLoop_delta (t : Q) (p : Loop) :
  loop_lastTime p <= t -> 0 <= (t - loop_lastTime p) / 1000.
Proof.
  intro H. apply Qle_shift_div_l; [reflexivity|]. lra.
Qed.

Lemma update_never_raises (dt : Q) (w : World) :
  Consistent w -> 0 <= dt -> currentAngle (update dt w) <= currentAngle w.
Proof.
  intros Hc Hdt. destruct (isBending w) eqn:Hb.
  - apply update_decreases; try assumption.
    + rewrite (speed_fixed w Hc). discriminate.
    + apply (angle_in_range w Hc).
  - rewrite (update_not_bending dt w Hb). apply Qle_refl.
Qed.

Lemma last_cons (l : list Q) :
  forall a d : Q, last (a :: l) d = last l a.
Proof.
  induction l as [|b l IH]; intros a d; [reflexivity|].
  change (last (a :: b :: l) d) with (last (b :: l) d).
  rewrite (IH b d), (IH b a). reflexivity.
Qed.

Section LoopRuns.

Variable TARGET_ANGLES : list Q.

Lemma loops_reachable (timestamps : list Q) :
  forall p : Loop,
    clock_forward (loop_lastTime p) timestamps ->
    Reachable TARGET_ANGLES (loop_state p) ->
    Reachable TARGET_ANGLES (loop_state (loops timestamps p)) /\
    currentAngle (loop_state (loops timestamps p)) <=
      currentAngle (loop_state p) /\
    loop_lastTime (loops timestamps p) = last timestamps (loop_lastTime p).
Proof.
  induction timestamps as [|t rest IH]; intros p Hclock Hr.
  - simpl. split; [exact Hr|]. split; [apply Qle_refl|reflexivity].
  - destruct Hclock as [Ht Hrest].
    pose proof (gameLoop_delta t p Ht) as Hd.
    assert (Hr1 : Reachable TARGET_ANGLES (loop_state (gameLoop t p))).
    { apply (reach_step TARGET_ANGLES
               (ev_frame ((t - loop_lastTime p) / 1000))); assumption. }
    destruct (IH (gameLoop t p) Hrest Hr1) as (H1 & H2 & H3).
    cbn [loops]. split; [exact H1|]. split.
    + apply Qle_trans with (currentAngle (loop_state (gameLoop t p)));
        [exact H2|].
      apply update_never_raises; [|exact Hd].
      apply (Reachable_Consistent TARGET_ANGLES). exact Hr.
    + rewrite H3. cbn [gameLoop loop_lastTime].
      symmetry. apply last_cons.
Qed.

End LoopRuns.

(** X10.  Driven by time stamps that never go back, the frame loop only
    takes steps with elapsed times that are not negative: every state it
    passes through is a reachable state (so that what holds of the
    reachable states holds of the running loop), the angle at the end is at
    most the angle at the start, [lastTime] ends as the last time stamp
    given, and while [isBending] is false the state is left alone. *)
Theorem gameLoop_clock_forward :
  forall (TARGET_ANGLES : list Q) (timestamps : list Q) (p : Loop),
    clock_forward (loop_lastTime p) timestamps ->
    Reachable TARGET_ANGLES (loop_state p) ->
    Reachable TARGET_ANGLES (loop_state (loops timestamps p)) /\
    MIN_ANGLE <= currentAngle (loop_state (loops timestamps p)) /\
    currentAngle (loop_state (loops timestamps p)) <=
      currentAngle (loop_state p) /\
    loop_lastTime (loops timestamps p) = last timestamps (loop_lastTime p) /\
    (isBending (loop_state p) = false ->
     loop_state (loops timestamps p) = loop_state p).
Proof.
  intros TA ts p Hclock Hr.
  destruct (loops_reachable TA ts p Hclock Hr) as (H1 & H2 & H3).
  split; [exact H1|]. split.
  { apply (angle_in_range _ (Reachable_Consistent TA _ H1)). }
  split; [exact H2|]. split; [exact H3|].
  clear. revert p. induction ts as [|t rest IH]; intros p Hb; [reflexivity|].
  cbn [loops]. rewrite IH.
  - cbn [gameLoop loop_state]. apply update_not_bending. exact Hb.
  - cbn [gameLoop loop_state]. rewrite update_not_bending; assumption.
Qed.

Lemma gameLoop_clock_forward_witness :
  Reachable TARGET_ANGLES_main
    (loop_state (loops [1016; 1033; 1033; 1050] (mkLoop 1000 bending))) /\
  currentAngle (loop_state (loops [1016; 1033; 1033; 1050] (mkLoop 1000 bending)))
    <= currentAngle bending.
Proof.
  destruct (gameLoop_clock_forward TARGET_ANGLES_main [1016; 1033; 1033; 1050]
              (mkLoop 1000 bending)) as (Hr & _ & Hle & _).
  - cbn [clock_forward loop_lastTime].
    repeat split; discriminate.
  - exact Reachable_bending.
  - exact (conj Hr Hle).
Defined.

(** X11.  There is no clamp at the top: a step with a negative elapsed time
    (a time stamp before [lastTime]) raises the angle of a bending sheet,
    and leaves everything else as it is. *)
Theorem update_clock_going_back :
  forall (dt : Q) (w : World),
    isBending w = true -> MIN_ANGLE <= currentAngle w ->
    0 < bendSpeed w -> dt < 0 ->
    update dt w = set_currentAngle (currentAngle w - bendSpeed w * dt) w /\
    currentAngle w < currentAngle (update dt w).
Proof.
  intros dt w Hb Hge Hs Hdt.
  assert (Hneg : bendSpeed w * dt < 0).
  { setoid_replace 0 with (bendSpeed w * 0) by ring.
    rewrite (Qmult_comm (bendSpeed w) dt), (Qmult_comm (bendSpeed w) 0).
    apply Qmult_lt_compat_r; assumption. }
  assert (Hfree : MIN_ANGLE <= currentAngle w - bendSpeed w * dt) by lra.
  rewrite (update_free dt w Hb Hfree). split; [reflexivity|]. cbn. lra.
Qed.

Lemma update_clock_going_back_witness :
  currentAngle mid_bend < currentAngle (update (-1) mid_bend).
Proof.
  destruct (update_clock_going_back (-1) mid_bend) as [_ H].
  - reflexivity.
  - discriminate.
  - reflexivity.
  - reflexivity.
  - exact H.
Defined.

(** ** Punch depth *)

Lemma currentDepth_linear (angle : Q) : currentDepth angle == (180 - angle) * (2 # 5).
Proof. unfold currentDepth. field. Qed.

Lemma punchY_linear (dieY angle : Q) :
  punchY dieY angle == dieY - 5 + (180 - angle) * (1 # 3).
Proof. unfold punchY. field. Qed.

(** X12.  [src/src/renderer.js] scales the punch depth for angles down to 30,
    where it would be [maxDepth] = 60; with the angle kept between the
    floor 45 and 180 the depth stays between 0 and 54, the punch tip
    between 3 above and 51 below the die top, and a smaller angle never
    draws the punch higher. *)
Theorem currentDepth_range :
  forall dieTopY a a' : Q,
    MIN_ANGLE <= a -> a <= a' -> a' <= FLAT_ANGLE ->
    0 <= currentDepth a' /\
    currentDepth a' <= currentDepth a /\
    currentDepth a <= 54 /\
    dieTopY - 3 <= punchTipY dieTopY a' /\
    punchTipY dieTopY a' <= punchTipY dieTopY a /\
    punchTipY dieTopY a <= dieTopY + 51.
Proof.
  intros d a a' H1 H2 H3. unfold punchTipY, MIN_ANGLE, FLAT_ANGLE in *.
  cbv zeta.
  pose proof (currentDepth_linear a) as La.
  pose proof (currentDepth_linear a') as La'.
  setoid_replace (6 / 2) with 3 by field.
  repeat split; lra.
Qed.

Lemma currentDepth_range_witness :
  0 <= currentDepth (currentAngle bending) /\
  currentDepth (currentAngle bending) <= 54.
Proof.
  destruct (currentDepth_range 0 (currentAngle bending) (currentAngle bending))
    as (H0 & _ & H54 & _).
  - vm_compute. discriminate.
  - vm_compute. discriminate.
  - vm_compute. discriminate.
  - exact (conj H0 H54).
Defined.

(** X13.  [drawPunch] of [src/unnamed/part_001] takes the punch tip from 5
    above the die top at 180 degrees down to 40 below it at the floor of
    45, never higher for a smaller angle.  The bottom of the V that
    [drawDie] draws lies 30 below the die top: the tip is at or above it
    for every angle of at least 75, at or below it for every angle of at
    most 75, and 10 below it at the floor. *)
Theorem punchY_range :
  forall dieY a a' : Q,
    MIN_ANGLE <= a -> a <= a' -> a' <= FLAT_ANGLE ->
    dieY - 5 <= punchY dieY a' /\
    punchY dieY a' <= punchY dieY a /\
    punchY dieY a <= dieY + 40 /\
    (75 <= a -> punchY dieY a <= dieY + 30) /\
    (a <= 75 -> dieY + 30 <= punchY dieY a) /\
    punchY dieY FLAT_ANGLE == dieY - 5 /\
    punchY dieY MIN_ANGLE == dieY + 40.
Proof.
  intros d a a' H1 H2 H3. unfold MIN_ANGLE, FLAT_ANGLE in *.
  pose proof (punchY_linear d a) as L.
  pose proof (punchY_linear d a') as L'.
  pose proof (punchY_linear d 180) as L180.
  pose proof (punchY_linear d 45) as L45.
  repeat split; try lra; intro; lra.
Qed.

Lemma punchY_range_witness :
  punchY 400 60 <= 400 + 40 /\ 400 + 30 <= punchY 400 60.
Proof.
  destruct (punchY_range 400 60 60) as (_ & _ & H40 & _ & H30 & _).
  - discriminate.
  - discriminate.
  - discriminate.
  - split; [exact H40|]. apply H30. discriminate.
Defined.

(** ** Leaderboards *)

(** *** The sort *)

Lemma insert_desc_perm (e : Entry) (l : list Entry) :
  Permutation (insert_desc e l) (e :: l).
Proof.
  induction l as [|y l IH]; simpl; [apply Permutation_refl|].
  destruct (entry_score y <=? entry_score e)%Z; [apply Permutation_refl|].
  apply Permutation_trans with (y :: e :: l);
    [apply perm_skip; exact IH|apply perm_swap].
Qed.

Lemma sort_desc_perm (l : list Entry) : Permutation (sort_desc l) l.
Proof.
  induction l as [|x l IH]; simpl; [apply perm_nil|].
  apply Permutation_trans with (x :: sort_desc l);
    [apply insert_desc_perm|apply perm_skip; exact IH].
Qed.

Lemma sort_desc_length (l : list Entry) : length (sort_desc l) = length l.
Proof. apply Permutation_length. apply sort_desc_perm. Qed.

Lemma sort_desc_In (e : Entry) (l : list Entry) :
  In e (sort_desc l) <-> In e l.
Proof.
  split; apply Permutation_in;
    [apply sort_desc_perm|apply Permutation_sym; apply sort_desc_perm].
Qed.

Lemma insert_desc_sorted (e : Entry) (l : list Entry) :
  StronglySorted desc l -> StronglySorted desc (insert_desc e l).
Proof.
  induction 1 as [|y l Hl IH Hy]; simpl.
  - constructor; constructor.
  - destruct (entry_score y <=? entry_score e)%Z eqn:E.
    + apply Z.leb_le in E. constructor; [constructor; assumption|].
      constructor; [exact E|].
      eapply Forall_impl; [|exact Hy]. unfold desc. intros a Ha. lia.
    + apply Z.leb_gt in E. constructor; [exact IH|].
      apply (Permutation_Forall (Permutation_sym (insert_desc_perm e l))).
      constructor; [unfold desc; lia|exact Hy].
Qed.

Lemma sort_desc_sorted (l : list Entry) : StronglySorted desc (sort_desc l).
Proof.
  induction l as [|x l IH]; simpl; [constructor|].
  apply insert_desc_sorted. exact IH.
Qed.

Lemma sort_desc_id (l : list Entry) :
  StronglySorted desc l -> sort_desc l = l.
Proof.
  induction 1 as [|y l Hl IH Hy]; simpl; [reflexivity|].
  rewrite IH. destruct l as [|z l]; [reflexivity|]. simpl.
  inversion Hy as [|? ? Hz _]; subst. unfold desc in Hz.
  apply Z.leb_le in Hz. rewrite Hz. reflexivity.
Qed.

Lemma with_score_insert_desc (k : Z) (e : Entry) (l : list Entry) :
  StronglySorted desc l ->
  with_score k (insert_desc e l) = with_score k (e :: l).
Proof.
  induction 1 as [|y l Hl IH Hy]; [reflexivity|].
  cbn [insert_desc].
  destruct (entry_score y <=? entry_score e)%Z eqn:E; [reflexivity|].
  apply Z.leb_gt in E. unfold with_score in *. cbn [filter] in *.
  rewrite IH.
  destruct (entry_score y =? k)%Z eqn:Ey, (entry_score e =? k)%Z eqn:Ee;
    try reflexivity.
  apply Z.eqb_eq in Ey. apply Z.eqb_eq in Ee. lia.
Qed.

(** The sort keeps entries of equal score in the order they had. *)
Lemma sort_desc_stable (k : Z) (l : list Entry) :
  with_score k (sort_desc l) = with_score k l.
Proof.
  induction l as [|x l IH]; [reflexivity|]. cbn [sort_desc].
  rewrite with_score_insert_desc by apply sort_desc_sorted.
  unfold with_score in *. cbn [filter]. rewrite IH. reflexivity.
Qed.

Lemma sorted_last_lowest (l : list Entry) (lowest : Entry) :
  StronglySorted desc l ->
  nth_error l (length l - 1) = Some lowest ->
  forall e : Entry, In e l -> (entry_score lowest <= entry_score e)%Z.
Proof.
  induction 1 as [|y l Hl IH Hy]; intros Hn e He; [contradiction|].
  destruct l as [|z l].
  - simpl in Hn. inversion Hn; subst. destruct He as [<-|[]]. lia.
  - assert (Hn' : nth_error (z :: l) (length (z :: l) - 1) = Some lowest).
    { simpl in Hn |- *. rewrite Nat.sub_0_r in *. exact Hn. }
    assert (Hin : In lowest (z :: l)) by (eapply nth_error_In; exact Hn').
    destruct He as [<-|He].
    + rewrite Forall_forall in Hy. apply (Hy lowest Hin).
    + apply IH; assumption.
Qed.

Lemma nth_error_last_some (l : list Entry) :
  l <> [] -> exists lowest, nth_error l (length l - 1) = Some lowest.
Proof.
  intro Hne.
  destruct (nth_error l (length l - 1)) as [x|] eqn:E; [exists x; reflexivity|].
  apply nth_error_None in E. destruct l; [congruence|]. simpl in E. lia.
Qed.

(** *** The local leaderboard *)

Lemma saveScore_sorted_list (trimmed date : string) (w : World)
    (storage : option (list Entry)) :
  LocalBoard.saveScore trimmed date w storage =
    let sorted :=
      sort_desc (LocalBoard.stored storage ++ [new_entry trimmed date w]) in
    if (5 <? length sorted)%nat then firstn 5 sorted else sorted.
Proof. reflexivity. Qed.

(** X14.  Whatever the stored list was, the list [saveScore] writes back has at
    most five entries, is in descending order of score, consists of
    entries that were stored or of the new one, and is left as it is by the
    next sort and by the cut to five of the mini scoreboard. *)
Theorem saveScore_board :
  forall (trimmed date : string) (w : World) (storage : option (list Entry)),
    (length (LocalBoard.saveScore trimmed date w storage) <= 5)%nat /\
    StronglySorted desc (LocalBoard.saveScore trimmed date w storage) /\
    (forall e : Entry,
       In e (LocalBoard.saveScore trimmed date w storage) ->
       In e (LocalBoard.stored storage) \/ e = new_entry trimmed date w) /\
    sort_desc (LocalBoard.saveScore trimmed date w storage) =
      LocalBoard.saveScore trimmed date w storage /\
    LocalBoard.miniScoreboard
      (Some (LocalBoard.saveScore trimmed date w storage)) =
      LocalBoard.saveScore trimmed date w storage.
Proof.
  intros trimmed date w storage. rewrite saveScore_sorted_list. cbv zeta.
  set (sorted := sort_desc (LocalBoard.stored storage ++ [new_entry trimmed date w])).
  assert (Hs : StronglySorted desc sorted) by apply sort_desc_sorted.
  assert (Hin : forall e, In e sorted ->
                  In e (LocalBoard.stored storage) \/ e = new_entry trimmed date w).
  { intros e He. unfold sorted in He.
    apply (proj1 (sort_desc_In _ _)) in He. apply in_app_or in He.
    destruct He as [He|[He|[]]]; [left; exact He|right; symmetry; exact He]. }
  set (board := if (5 <? length sorted)%nat then firstn 5 sorted else sorted).
  assert (Hlen : (length board <= 5)%nat).
  { subst board. destruct (5 <? length sorted)%nat eqn:E.
    - rewrite length_firstn. lia.
    - apply Nat.ltb_ge in E. exact E. }
  assert (Hsorted : StronglySorted desc board).
  { subst board. destruct (5 <? length sorted)%nat; [|exact Hs].
    rewrite <- (firstn_skipn 5 sorted) in Hs.
    revert Hs. generalize (firstn 5 sorted) as a. generalize (skipn 5 sorted) as b.
    intros b a. induction a as [|x a IH]; intro H; [constructor|].
    simpl in H. inversion H as [|? ? Hrest Hx]; subst.
    constructor; [apply IH; exact Hrest|].
    apply Forall_app in Hx. apply Hx. }
  split; [exact Hlen|]. split; [exact Hsorted|]. split.
  - intros e He. apply Hin. subst board.
    destruct (5 <? length sorted)%nat; [|exact He].
    rewrite <- (firstn_skipn 5 sorted). apply in_or_app. left. exact He.
  - split; [apply sort_desc_id; exact Hsorted|].
    unfold LocalBoard.miniScoreboard, LocalBoard.stored.
    apply firstn_all2. exact Hlen.
Qed.

Lemma checkHighScore_iff :
  forall (w : World) (storage : option (list Entry)),
    LocalBoard.checkHighScore w storage = highscore_modal <->
    (length (LocalBoard.stored storage) < 5)%nat \/
    exists e : Entry,
      In e (LocalBoard.stored storage) /\ (entry_score e < score w)%Z.
Proof.
  intros w storage. unfold LocalBoard.checkHighScore. cbv zeta.
  set (l := LocalBoard.stored storage).
  rewrite sort_desc_length.
  destruct (length l <? 5)%nat eqn:E.
  - apply Nat.ltb_lt in E. split; [intros _; left; exact E|reflexivity].
  - apply Nat.ltb_ge in E.
    assert (Hne : sort_desc l <> []).
    { intro H0. apply (f_equal (@length Entry)) in H0.
      rewrite sort_desc_length in H0. simpl in H0. lia. }
    destruct (nth_error_last_some (sort_desc l) Hne) as [lowest Hlow].
    rewrite sort_desc_length in Hlow. rewrite Hlow.
    assert (Hmin : forall e, In e l -> (entry_score lowest <= entry_score e)%Z).
    { intros e He. apply (sorted_last_lowest (sort_desc l) lowest).
      - apply sort_desc_sorted.
      - rewrite sort_desc_length. exact Hlow.
      - apply sort_desc_In. exact He. }
    assert (Hin : In lowest l).
    { apply sort_desc_In. eapply nth_error_In. exact Hlow. }
    destruct (entry_score lowest <? score w)%Z eqn:Eb.
    + apply Z.ltb_lt in Eb. split; [|reflexivity].
      intros _. right. exists lowest. split; assumption.
    + apply Z.ltb_ge in Eb. split; [discriminate|].
      intros [Hlt|[e [He Hlt]]]; [lia|].
      specialize (Hmin e He). lia.
Qed.

(** X15.  [checkHighScore] of the local board opens the name dialog exactly when
    fewer than five entries are stored or the score is above that of at
    least one stored entry, in whatever order the entries are stored; a
    score equal to the lowest of five does not qualify. *)
Theorem checkHighScore_beats_an_entry :
  forall (w : World) (storage : option (list Entry)),
    (LocalBoard.checkHighScore w storage = highscore_modal <->
     (length (LocalBoard.stored storage) < 5)%nat \/
     exists e : Entry,
       In e (LocalBoard.stored storage) /\ (entry_score e < score w)%Z) /\
    (LocalBoard.checkHighScore w storage = scoreboard_modal <->
     (5 <= length (LocalBoard.stored storage))%nat /\
     forall e : Entry,
       In e (LocalBoard.stored storage) -> (score w <= entry_score e)%Z).
Proof.
  intros w storage. pose proof (checkHighScore_iff w storage) as H.
  split; [exact H|].
  destruct (LocalBoard.checkHighScore w storage).
  - split; [discriminate|]. intros [Hlen Hall].
    destruct (proj1 H eq_refl) as [Hlt|[e [He Hlt]]]; [lia|].
    specialize (Hall e He). lia.
  - split; [|reflexivity]. intros _. split.
    + destruct (Nat.lt_ge_cases (length (LocalBoard.stored storage)) 5)
        as [Hlt|Hge]; [|exact Hge].
      assert (Habs : scoreboard_modal = highscore_modal)
        by (apply H; left; exact Hlt).
      discriminate.
    + intros e He.
      destruct (Z_lt_le_dec (entry_score e) (score w)) as [Hlt|Hle]; [|exact Hle].
      assert (Habs : scoreboard_modal = highscore_modal)
        by (apply H; right; exists e; split; assumption).
      discriminate.
Qed.

(** X16.  When [checkHighScore] has opened the name dialog and at most five
    entries are stored, the entry that [saveScore] adds is on the list it
    writes back. *)
Theorem qualified_score_is_kept :
  forall (trimmed date : string) (w : World) (storage : option (list Entry)),
    LocalBoard.checkHighScore w storage = highscore_modal ->
    (length (LocalBoard.stored storage) <= 5)%nat ->
    In (new_entry trimmed date w) (LocalBoard.saveScore trimmed date w storage).
Proof.
  intros trimmed date w storage Hq Hlen.
  set (l := LocalBoard.stored storage) in *.
  set (n := new_entry trimmed date w).
  rewrite saveScore_sorted_list. cbv zeta. fold l n.
  assert (Hn : In n (sort_desc (l ++ [n]))).
  { apply sort_desc_In. apply in_or_app. right. left. reflexivity. }
  assert (Hl6 : length (sort_desc (l ++ [n])) = S (length l)).
  { rewrite sort_desc_length, length_app. simpl. lia. }
  destruct (5 <? length (sort_desc (l ++ [n])))%nat eqn:E; [|exact Hn].
  apply Nat.ltb_lt in E.
  assert (H5 : length l = 5%nat) by lia.
  apply checkHighScore_iff in Hq. fold l in Hq.
  destruct Hq as [Hq|[e [He Hlt]]]; [lia|].
  set (s := sort_desc (l ++ [n])) in *.
  assert (Hne : s <> []) by (intro H0; rewrite H0 in Hl6; discriminate).
  destruct (nth_error_last_some s Hne) as [z Hz].
  assert (Hzmin : (entry_score z <= entry_score e)%Z).
  { apply (sorted_last_lowest s z); [apply sort_desc_sorted|exact Hz|].
    apply sort_desc_In. apply in_or_app. left. exact He. }
  rewrite <- (firstn_skipn 5 s) in Hn. apply in_app_or in Hn.
  destruct Hn as [Hn|Hn]; [exact Hn|exfalso].
  assert (Hsk : skipn 5 s = [z]).
  { rewrite Hl6, H5 in Hz. simpl in Hz.
    destruct s as [|a [|b [|c [|d [|f [|g [|h s]]]]]]]; simpl in Hl6; try lia.
    simpl in Hz. inversion Hz. reflexivity. }
  rewrite Hsk in Hn. destruct Hn as [Hn|[]]. subst z.
  unfold n, new_entry in Hzmin. simpl in Hzmin. lia.
Qed.

Lemma qualified_score_is_kept_witness :
  In (new_entry "" "2026-02-01T09:00:00.000Z" finished_650)
     (LocalBoard.saveScore "" "2026-02-01T09:00:00.000Z" finished_650
        (Some full_board)).
Proof.
  apply qualified_score_is_kept.
  - vm_compute. reflexivity.
  - apply Nat.le_refl.
Defined.

Example saveScore_650 :
  map (fun e => (entry_name e, entry_score e))
    (LocalBoard.saveScore "" "2026-02-01T09:00:00.000Z" finished_650
       (Some full_board)) =
  [("Ada", 900); ("Bo", 800); ("Cy", 700); ("Anonym", 650); ("Di", 600)]%string%Z.
Proof. vm_compute. reflexivity. Qed.

Lemma checkHighScore_scoreboard (w : World) (storage : option (list Entry)) :
  LocalBoard.checkHighScore w storage = scoreboard_modal ->
  (5 <= length (LocalBoard.stored storage))%nat /\
  forall e : Entry,
    In e (LocalBoard.stored storage) -> (score w <= entry_score e)%Z.
Proof.
  intro Hb. pose proof (checkHighScore_iff w storage) as H. rewrite Hb in H.
  split.
  - destruct (Nat.lt_ge_cases (length (LocalBoard.stored storage)) 5)
      as [Hlt|Hge]; [|exact Hge].
    assert (Habs : scoreboard_modal = highscore_modal)
      by (apply H; left; exact Hlt).
    discriminate.
  - intros e He.
    destruct (Z_lt_le_dec (entry_score e) (score w)) as [Hlt|Hle]; [|exact Hle].
    assert (Habs : scoreboard_modal = highscore_modal)
      by (apply H; right; exists e; split; assumption).
    discriminate.
Qed.

Lemma sorted_app_lowest (l : list Entry) (n : Entry) :
  StronglySorted desc l ->
  (forall e, In e l -> (entry_score n <= entry_score e)%Z) ->
  StronglySorted desc (l ++ [n]).
Proof.
  induction 1 as [|y l Hl IH Hy]; intro Hall; simpl.
  - constructor; constructor.
  - constructor.
    + apply IH. intros e He. apply Hall. right. exact He.
    + apply Forall_app. split; [exact Hy|].
      constructor; [|constructor]. apply Hall. left. reflexivity.
Qed.

(** X17.  When [checkHighScore] has not opened the name dialog, the stored list
    being in descending order with at most five entries (as [saveScore]
    leaves it), a [saveScore] all the same would write the stored list back
    unchanged: the new entry, also when it ties with the lowest, is the one
    that is cut off. *)
Theorem unqualified_score_is_dropped :
  forall (trimmed date : string) (w : World) (storage : option (list Entry)),
    LocalBoard.checkHighScore w storage = scoreboard_modal ->
    StronglySorted desc (LocalBoard.stored storage) ->
    (length (LocalBoard.stored storage) <= 5)%nat ->
    LocalBoard.saveScore trimmed date w storage = LocalBoard.stored storage.
Proof.
  intros trimmed date w storage Hb Hs Hlen.
  destruct (checkHighScore_scoreboard w storage Hb) as [H5 Hall].
  set (l := LocalBoard.stored storage) in *.
  rewrite saveScore_sorted_list. cbv zeta. fold l.
  rewrite sort_desc_id by (apply sorted_app_lowest; assumption).
  rewrite length_app. simpl length.
  assert (E : (5 <? length l + 1)%nat = true) by (apply Nat.ltb_lt; lia).
  rewrite E. rewrite firstn_app.
  replace (5 - length l)%nat with 0%nat by lia.
  rewrite firstn_all2 by exact Hlen. simpl. apply app_nil_r.
Qed.

Lemma full_board_sorted : StronglySorted desc full_board.
Proof.
  unfold full_board.
  repeat (constructor; [|repeat (constructor; [unfold desc; simpl; lia|]);
                         constructor]).
  constructor.
Qed.

Lemma unqualified_score_is_dropped_witness :
  LocalBoard.saveScore "Eve" "2026-02-01T09:00:00.000Z" finished
    (Some full_board) = full_board.
Proof.
  apply (unqualified_score_is_dropped "Eve" "2026-02-01T09:00:00.000Z"
           finished (Some full_board)).
  - vm_compute. reflexivity.
  - exact full_board_sorted.
  - apply Nat.le_refl.
Defined.

(** *** The leaderboard behind the API *)

Lemma before_hash_member (name now : string) :
  CloudBoard.before_hash (CloudBoard.member name now) =
  CloudBoard.before_hash name.
Proof.
  unfold CloudBoard.member.
  change ("#" ++ now)%string with (String "#" now).
  induction name as [|c name IH]; [reflexivity|]. simpl.
  destruct (Ascii.eqb c "#"); [reflexivity|]. rewrite IH. reflexivity.
Qed.

Lemma before_hash_fixed (s : string) :
  CloudBoard.before_hash s = s <-> has_hash s = false.
Proof.
  induction s as [|c s IH]; [split; reflexivity|].
  cbn [CloudBoard.before_hash has_hash].
  destruct (Ascii.eqb c "#"); simpl.
  - split; discriminate.
  - rewrite <- IH. split; intro H; [inversion H; congruence|rewrite H; reflexivity].
Qed.

Lemma before_hash_has_no_hash (s : string) :
  has_hash (CloudBoard.before_hash s) = false.
Proof.
  induction s as [|c s IH]; [reflexivity|].
  cbn [CloudBoard.before_hash].
  destruct (Ascii.eqb c "#") eqn:E; [reflexivity|].
  cbn [has_hash]. rewrite E, IH. reflexivity.
Qed.

(** X18.  The name shown for a stored member [name#timestamp] is the part of
    the name before its first ['#'], whatever the time stamp; it is the
    name that was entered exactly when that name contains no ['#'], and it
    never contains one. *)
Theorem member_display_name :
  forall name now : string,
    CloudBoard.before_hash (CloudBoard.member name now) =
      CloudBoard.before_hash name /\
    (CloudBoard.before_hash (CloudBoard.member name now) = name <->
     has_hash name = false) /\
    has_hash (CloudBoard.before_hash (CloudBoard.member name now)) = false.
Proof.
  intros name now. rewrite before_hash_member.
  split; [reflexivity|]. split; [apply before_hash_fixed|].
  apply before_hash_has_no_hash.
Qed.

Example member_display_name_plain :
  CloudBoard.before_hash (CloudBoard.member "Pl#t-Lisa" "1767610800000") =
  "Pl"%string.
Proof. reflexivity. Qed.

Lemma formatted_pairs {V : Type} (pairs : list (V * V)) (tail : list V) :
  CloudBoard.formatted (CloudBoard.withScores pairs ++ tail) =
  map (fun p => (fst p, Some (snd p))) pairs ++ CloudBoard.formatted tail.
Proof.
  induction pairs as [|[m sc] pairs IH]; [reflexivity|].
  cbn [CloudBoard.withScores app CloudBoard.formatted map fst snd].
  rewrite IH. reflexivity.
Qed.

(** X19.  The GET handler turns the flat reply [[member1, score1, member2,
    score2, ...]] back into the (member, score) pairs it came from, in
    order; a reply with one value too many gives a last entry without a
    score. *)
Theorem formatted_withScores :
  forall (V : Type) (pairs : list (V * V)) (m : V),
    CloudBoard.formatted (CloudBoard.withScores pairs) =
      map (fun p => (fst p, Some (snd p))) pairs /\
    CloudBoard.formatted (CloudBoard.withScores pairs ++ [m]) =
      map (fun p => (fst p, Some (snd p))) pairs ++ [(m, None)] /\
    length (CloudBoard.formatted (CloudBoard.withScores pairs)) = length pairs.
Proof.
  intros V pairs m.
  assert (H : CloudBoard.formatted (CloudBoard.withScores pairs) =
              map (fun p => (fst p, Some (snd p))) pairs).
  { rewrite <- (app_nil_r (CloudBoard.withScores pairs)).
    rewrite formatted_pairs. apply app_nil_r. }
  split; [exact H|]. split; [rewrite formatted_pairs; reflexivity|].
  rewrite H. apply length_map.
Qed.

Lemma fetched_last_lowest (body : list (string * Z)) (lowest : string * Z) :
  StronglySorted by_score body ->
  nth_error body (length body - 1) = Some lowest ->
  forall e : string * Z, In e body -> (snd lowest <= snd e)%Z.
Proof.
  induction 1 as [|y l Hl IH Hy]; intros Hn e He; [contradiction|].
  destruct l as [|z l].
  - simpl in Hn. inversion Hn; subst. destruct He as [<-|[]]. lia.
  - assert (Hn' : nth_error (z :: l) (length (z :: l) - 1) = Some lowest).
    { simpl in Hn |- *. rewrite Nat.sub_0_r in *. exact Hn. }
    assert (Hin : In lowest (z :: l)) by (eapply nth_error_In; exact Hn').
    destruct He as [<-|He].
    + rewrite Forall_forall in Hy. apply (Hy lowest Hin).
    + apply IH; assumption.
Qed.

(** X20.  When the list fetched from [/api/scores] is in descending order
    of score (the order in which the GET handler asks the store for it),
    [checkHighScore] of [src/main.js] opens the name dialog exactly when
    the list has fewer than ten entries or the score of the session is
    above the score of at least one entry; a score that only ties with the
    lowest of ten does not qualify, and what stands behind a ['#'] in the
    names plays no part. *)
Theorem checkHighScore_beats_a_fetched_entry :
  forall (w : World) (body : list (string * Z)),
    StronglySorted by_score body ->
    (CloudBoard.checkHighScore w (CloudBoard.fetch_ok body) = highscore_modal <->
     (length body < 10)%nat \/
     exists e : string * Z, In e body /\ (snd e < score w)%Z) /\
    (CloudBoard.checkHighScore w (CloudBoard.fetch_ok body) = scoreboard_modal <->
     (10 <= length body)%nat /\
     forall e : string * Z, In e body -> (score w <= snd e)%Z).
Proof.
  intros w body Hsorted.
  assert (H : CloudBoard.checkHighScore w (CloudBoard.fetch_ok body) =
              highscore_modal <->
              (length body < 10)%nat \/
              exists e : string * Z, In e body /\ (snd e < score w)%Z).
  { unfold CloudBoard.checkHighScore.
    rewrite length_map, nth_error_map.
    destruct (length body <? 10)%nat eqn:E.
    - apply Nat.ltb_lt in E. split; [intros _; left; exact E|reflexivity].
    - apply Nat.ltb_ge in E.
      destruct (nth_error body (length body - 1)) as [lowest|] eqn:El; simpl.
      + pose proof (fetched_last_lowest body lowest Hsorted El) as Hmin.
        assert (Hin : In lowest body) by (eapply nth_error_In; exact El).
        destruct (snd lowest <? score w)%Z eqn:Eb.
        * apply Z.ltb_lt in Eb. split; [|reflexivity].
          intros _. right. exists lowest. split; assumption.
        * apply Z.ltb_ge in Eb. split; [discriminate|].
          intros [Hlt|[e [He Hlt]]]; [lia|]. specialize (Hmin e He). lia.
      + apply nth_error_None in El. lia. }
  split; [exact H|].
  destruct (CloudBoard.checkHighScore w (CloudBoard.fetch_ok body)).
  - split; [discriminate|]. intros [Hlen Hall].
    destruct (proj1 H eq_refl) as [Hlt|[e [He Hlt]]]; [lia|].
    specialize (Hall e He). lia.
  - split; [|reflexivity]. intros _. split.
    + destruct (Nat.lt_ge_cases (length body) 10) as [Hlt|Hge]; [|exact Hge].
      assert (Habs : scoreboard_modal = highscore_modal)
        by (apply H; left; exact Hlt).
      discriminate.
    + intros e He.
      destruct (Z_lt_le_dec (snd e) (score w)) as [Hlt|Hle]; [|exact Hle].
      assert (Habs : scoreboard_modal = highscore_modal)
        by (apply H; right; exists e; split; assumption).
      discriminate.
Qed.

Lemma fetched_board_sorted : StronglySorted by_score fetched_board.
Proof.
  unfold fetched_board.
  repeat (constructor; [|repeat (constructor; [unfold by_score; simpl; lia|]);
                         constructor]).
  constructor.
Qed.

Lemma checkHighScore_beats_a_fetched_entry_witness :
  CloudBoard.checkHighScore finished_650 (CloudBoard.fetch_ok fetched_board) =
    highscore_modal /\
  CloudBoard.checkHighScore finished (CloudBoard.fetch_ok fetched_board) =
    scoreboard_modal.
Proof.
  destruct (checkHighScore_beats_a_fetched_entry finished_650 fetched_board
              fetched_board_sorted) as [Hq _].
  destruct (checkHighScore_beats_a_fetched_entry finished fetched_board
              fetched_board_sorted) as [_ Hb].
  split.
  - apply Hq. right. exists ("Jo#1767610809000"%string, 500%Z).
    split; [|vm_compute; reflexivity].
    unfold fetched_board. do 9 right. left. reflexivity.
  - apply Hb. split; [apply Nat.le_refl|].
    intros e He. unfold fetched_board in He.
    repeat (destruct He as [<-|He]; [vm_compute; discriminate|]).
    contradiction.
Defined.
